(** * Broadcaster: the socket group (server.ts) and the client socket (client.ts)

    A shallow embedding of [createSocketGroup] and [connect], with the part
    of the JavaScript runtime their behaviour depends on:

    - a call returns or throws, and keeps the effects it had until then;
    - [o[k]] looks at the own properties of [o] and then at
      [Object.prototype]; [Object.values] enumerates the String-keyed own
      properties, array indices first;
    - a WebSocket is CONNECTING until its handshake is done; [send] throws
      on a CONNECTING socket, transmits on an OPEN one and drops the data
      on a closing or closed one; [close] is harmless on any of them;
    - WebSocket objects live in a heap and are referred to by identity, so
      that a socket the registry has dropped still exists and still
      receives events;
    - the functions of the host application (handlers, option callbacks)
      are known by identity, and calling one is recorded in a trace.

    JSON text and IEEE numbers are taken from the platform as parameters
    ([Codec], [Numbers]). *)

From Stdlib Require Import String Ascii NArith List Lia Permutation Sorted DecimalString.
From stdpp Require Import base list strings.

Local Open Scope string_scope.

(** ** Completions: a call either returns or throws, and keeps its effects *)

Inductive Exception : Type :=
| TypeError
| SyntaxError
| InvalidStateError
| Http                  (* Deno.errors.Http *)
| Custom (tag : nat).

Inductive Outcome (S A : Type) : Type :=
| Returned (a : A) (s : S)
| Thrown (e : Exception) (s : S).

Arguments Returned {S A} a s.
Arguments Thrown {S A} e s.

Definition Js (S A : Type) : Type := S -> Outcome S A.

Definition ret {S A} (a : A) : Js S A := fun s => Returned a s.

Definition throw {S A} (e : Exception) : Js S A := fun s => Thrown e s.

Definition bind {S A B} (m : Js S A) (k : A -> Js S B) : Js S B :=
  fun s => match m s with
           | Returned a s' => k a s'
           | Thrown e s' => Thrown e s'
           end.

Definition gets {S A} (f : S -> A) : Js S A := fun s => Returned (f s) s.

Definition modify {S} (f : S -> S) : Js S unit := fun s => Returned tt (f s).

(** [try { m } catch (e) { h e }] *)
Definition try_catch {S A} (m : Js S A) (h : Exception -> Js S A) : Js S A :=
  fun s => match m s with
           | Returned a s' => Returned a s'
           | Thrown e s' => h e s'
           end.

Declare Scope js_scope.
Delimit Scope js_scope with js.
Notation "x <- m ;; k" := (bind m (fun x => k))
  (at level 100, m at next level, right associativity) : js_scope.
Notation "m ;; k" := (bind m (fun _ => k))
  (at level 100, right associativity) : js_scope.
Local Open Scope js_scope.

(** [for (const x of xs) body(x)] *)
Fixpoint for_of {S A} (xs : list A) (body : A -> Js S unit) : Js S unit :=
  match xs with
  | [] => ret tt
  | x :: rest => body x ;; for_of rest body
  end.

(** What the state is when the call is over, however it ended. *)
Definition final {S A} (o : Outcome S A) : S :=
  match o with
  | Returned _ s => s
  | Thrown _ s => s
  end.

(** ** Property keys and ordinary objects *)

(** IEEE doubles are not modelled: the two operations the code relies on
    ([Number::toString], used when a number becomes a property key, and the
    zero test behind truthiness) are parameters. *)
Class Numbers : Type := {
  Number : Type;
  Number_toString : Number -> string;
  Number_is_zero : Number -> bool
}.

(** A property key is a String or a Symbol. *)
Inductive PropertyKey : Type :=
| PString (s : string)
| PSymbol (id : nat).

Definition PropertyKey_eqb (a b : PropertyKey) : bool :=
  match a, b with
  | PString s, PString t => String.eqb s t
  | PSymbol i, PSymbol j => Nat.eqb i j
  | _, _ => false
  end.

(** Function objects, by identity. *)
Inductive FunctionRef : Type :=
| Fn (id : nat).

(** The prototype of an object created by the host application. *)
Inductive Proto : Type :=
| ObjectPrototype      (* an object literal *)
| NullPrototype.       (* Object.create(null) *)

(** Deno deletes [Object.prototype.__proto__] at start-up; a browser has it. *)
Inductive Realm : Type :=
| Deno
| Browser.

(** What a lookup can find on [Object.prototype]. *)
Inductive Builtin : Type :=
| ObjectPrototypeFunction (name : string)   (* e.g. Object.prototype.valueOf *)
| ObjectPrototypeItself.                    (* what the __proto__ getter returns *)

Definition Object_prototype_functions : list string :=
  [ "constructor"; "__defineGetter__"; "__defineSetter__"; "hasOwnProperty";
    "__lookupGetter__"; "__lookupSetter__"; "isPrototypeOf";
    "propertyIsEnumerable"; "toString"; "valueOf"; "toLocaleString" ].

Definition string_mem (s : string) (l : list string) : bool :=
  existsb (String.eqb s) l.

(** [Object.prototype[name]] for an object whose prototype is
    [Object.prototype] itself. *)
Definition Object_prototype_get (realm : Realm) (name : string) : option Builtin :=
  if string_mem name Object_prototype_functions
  then Some (ObjectPrototypeFunction name)
  else match realm with
       | Browser => if String.eqb name "__proto__" then Some ObjectPrototypeItself else None
       | Deno => None
       end.

(** The value of [o[k]]. *)
Inductive Looked (V : Type) : Type :=
| Own (v : V)
| Inherited (b : Builtin)
| Undefined.

Arguments Own {V} v.
Arguments Inherited {V} b.
Arguments Undefined {V}.

(** [if (f)] for an optional function *)
Definition provided {A} (f : option A) : bool :=
  match f with
  | Some _ => true
  | None => false
  end.

(** [if (x)] for the result of a lookup: objects and functions are truthy. *)
Definition truthy {V} (x : Looked V) : bool :=
  match x with
  | Own _ | Inherited _ => true
  | Undefined => false
  end.

Section OwnProperties.
Context {K V : Type} (eqb : K -> K -> bool).

(** Own properties, oldest first. *)
Fixpoint get_own (props : list (K * V)) (k : K) : option V :=
  match props with
  | [] => None
  | (k', v) :: rest => if eqb k' k then Some v else get_own rest k
  end.

(** [o[k] = v] on own data properties: an existing property keeps its
    place, a new one goes last. *)
Fixpoint set_own (props : list (K * V)) (k : K) (v : V) : list (K * V) :=
  match props with
  | [] => [(k, v)]
  | (k', v') :: rest =>
      if eqb k' k then (k', v) :: rest else (k', v') :: set_own rest k v
  end.

(** [delete o[k]] *)
Fixpoint delete_own (props : list (K * V)) (k : K) : list (K * V) :=
  match props with
  | [] => []
  | (k', v') :: rest =>
      if eqb k' k then delete_own rest k else (k', v') :: delete_own rest k
  end.
End OwnProperties.

(** *** Enumeration order of [Object.values]

    Array-index keys in ascending numeric order, then the other String keys
    in creation order; Symbol keys are not enumerated. *)

Definition digit_of (c : ascii) : option N :=
  let n := N_of_ascii c in
  if ((48 <=? n) && (n <=? 57))%N then Some (n - 48)%N else None.

Fixpoint digits_value (s : string) (acc : N) : option N :=
  match s with
  | EmptyString => Some acc
  | String c rest =>
      match digit_of c with
      | Some d => digits_value rest (acc * 10 + d)%N
      | None => None
      end
  end.

(** A canonical numeric string below 2^32 - 1. *)
Definition array_index (s : string) : option N :=
  match s with
  | EmptyString => None
  | String c rest =>
      if Ascii.eqb c "0"
      then match rest with EmptyString => Some 0%N | _ => None end
      else match digits_value s 0 with
           | Some n => if (n <? 4294967295)%N then Some n else None
           | None => None
           end
  end.

Section Enumeration.
Context {V : Type}.

Fixpoint insert_by_index (x : N * V) (sorted : list (N * V)) : list (N * V) :=
  match sorted with
  | [] => [x]
  | y :: rest =>
      if (fst x <=? fst y)%N then x :: y :: rest
      else y :: insert_by_index x rest
  end.

Fixpoint sort_by_index (l : list (N * V)) : list (N * V) :=
  match l with
  | [] => []
  | x :: rest => insert_by_index x (sort_by_index rest)
  end.

Fixpoint index_properties (props : list (PropertyKey * V)) : list (N * V) :=
  match props with
  | [] => []
  | (PString s, v) :: rest =>
      match array_index s with
      | Some i => (i, v) :: index_properties rest
      | None => index_properties rest
      end
  | (PSymbol _, _) :: rest => index_properties rest
  end.

Fixpoint named_properties (props : list (PropertyKey * V)) : list V :=
  match props with
  | [] => []
  | (PString s, v) :: rest =>
      match array_index s with
      | Some _ => named_properties rest
      | None => v :: named_properties rest
      end
  | (PSymbol _, _) :: rest => named_properties rest
  end.

Definition Object_values (props : list (PropertyKey * V)) : list V :=
  map snd (sort_by_index (index_properties props)) ++ named_properties props.

(** The values stored under String keys, in creation order. *)
Fixpoint string_keyed (props : list (PropertyKey * V)) : list V :=
  match props with
  | [] => []
  | (PString _, v) :: rest => v :: string_keyed rest
  | (PSymbol _, _) :: rest => string_keyed rest
  end.
End Enumeration.

(** ** Completions of the platform's own operations *)

Inductive Completion (A : Type) : Type :=
| Normal (a : A)
| Abrupt (e : Exception).

Arguments Normal {A} a.
Arguments Abrupt {A} e.

Definition complete {S A} (c : Completion A) : Js S A :=
  fun s => match c with
           | Normal a => Returned a s
           | Abrupt e => Thrown e s
           end.

(** ** JSON values *)

Section JsonValues.
Context `{Numbers}.

(** What [JSON.parse] can return (the fields of an object have distinct
    names: of a repeated name the parser keeps the last value). *)
#[warnings="-register-all"]
Inductive Json : Type :=
| JNull
| JBool (b : bool)
| JNumber (n : Number)
| JString (s : string)
| JArray (items : list Json)
| JObject (fields : list (string * Json)).

(** [!v] is false *)
Definition Json_truthy (v : Json) : bool :=
  match v with
  | JNull => false
  | JBool b => b
  | JNumber n => negb (Number_is_zero n)
  | JString s => negb (String.eqb s "")
  | JArray _ | JObject _ => true
  end.

(** [v.name] for the two names the dispatch code reads, "key" and "data":
    no prototype defines them, so only an own property of a parsed object
    can answer; [None] is [undefined]. *)
Definition Json_get (v : Json) (name : string) : option Json :=
  match v with
  | JObject fields => get_own String.eqb fields name
  | _ => None
  end.

(** [ToString], as applied when a parsed value is used as a property key.
    A primitive has its spelling.  An array is joined by
    [Array.prototype.join], which converts the elements in turn ([null]
    gives the empty string).  An object is converted by the [toString] it
    inherits from [Object.prototype], unless a field of its own is named
    "toString": that field is no function (the text was JSON), [valueOf]
    gives no primitive either, and the conversion throws a TypeError. *)
Fixpoint Json_ToString (v : Json) : Completion string :=
  match v with
  | JNull => Normal "null"
  | JBool true => Normal "true"
  | JBool false => Normal "false"
  | JNumber n => Normal (Number_toString n)
  | JString s => Normal s
  | JArray items =>
      let element (x : Json) : Completion string :=
        match x with
        | JNull => Normal ""
        | _ => Json_ToString x
        end in
      (fix join (l : list Json) : Completion string :=
         match l with
         | [] => Normal ""
         | [x] => element x
         | x :: rest =>
             match element x with
             | Normal first =>
                 match join rest with
                 | Normal others => Normal (first ++ "," ++ others)
                 | Abrupt e => Abrupt e
                 end
             | Abrupt e => Abrupt e
             end
         end) items
  | JObject fields =>
      if provided (get_own String.eqb fields "toString") then Abrupt TypeError
      else Normal "[object Object]"
  end.

(** [ToPropertyKey] of [o[v]] for a parsed value or [undefined]. *)
Definition ToPropertyKey (v : option Json) : Completion string :=
  match v with
  | None => Normal "undefined"
  | Some j => Json_ToString j
  end.
End JsonValues.

(** ** The platform's JSON codec

    [JSON.stringify] either returns the text or throws (a cyclic structure,
    a BigInt, a throwing [toJSON]); [JSON.parse] returns a value or throws a
    SyntaxError ([None]).  [Message] is whatever JavaScript value the caller
    passes as a message; [Message_ToString] is its conversion by a template
    literal, which throws for a value without a usable [toString] (an
    object made by [Object.create(null)], a Symbol). *)

Class Codec `{Numbers} : Type := {
  Message : Type;
  JSON_stringify : Message -> Completion string;
  Message_ToString : Message -> Completion string;
  JSON_parse : string -> option Json
}.

(** ** WebSocket objects *)

Inductive ReadyState : Type :=
| CONNECTING
| OPEN
| CLOSING
| CLOSED.

(** A WebSocket as its user sees it: the state, the frames [send] has put
    on the wire (oldest first) and how many times [close] was called. *)
Record WebSocket : Type := {
  readyState : ReadyState;
  sent : list string;
  close_calls : nat
}.

Definition new_WebSocket : WebSocket :=
  {| readyState := CONNECTING; sent := []; close_calls := 0 |}.

(** [ws.send(data)]: throws while CONNECTING, transmits while OPEN, and
    drops the data silently once the socket is closing or closed. *)
Definition WebSocket_send (data : string) (w : WebSocket) : Completion WebSocket :=
  match readyState w with
  | CONNECTING => Abrupt InvalidStateError
  | OPEN => Normal {| readyState := OPEN; sent := sent w ++ [data];
                      close_calls := close_calls w |}
  | CLOSING | CLOSED => Normal w
  end.

(** [ws.close()]: starts the closing handshake; nothing to do when the
    socket is already closing or closed. *)
Definition WebSocket_close (w : WebSocket) : WebSocket :=
  {| readyState := match readyState w with
                   | CONNECTING | OPEN => CLOSING
                   | CLOSING => CLOSING
                   | CLOSED => CLOSED
                   end;
     sent := sent w;
     close_calls := S (close_calls w) |}.

Definition set_readyState (r : ReadyState) (w : WebSocket) : WebSocket :=
  {| readyState := r; sent := sent w; close_calls := close_calls w |}.

(** ** Handler tables *)

Record HandlerTable : Type := {
  handlers_own : list (string * FunctionRef);
  handlers_proto : Proto
}.

(** [o[name]] on an object with the given own properties and prototype. *)
Definition Get {V} (realm : Realm) (proto : Proto)
    (own : list (PropertyKey * V)) (k : PropertyKey) : Looked V :=
  match get_own PropertyKey_eqb own k with
  | Some v => Own v
  | None =>
      match proto, k with
      | ObjectPrototype, PString name =>
          match Object_prototype_get realm name with
          | Some b => Inherited b
          | None => Undefined
          end
      | _, _ => Undefined
      end
  end.

Definition Get_handler (realm : Realm) (t : HandlerTable) (name : string)
    : Looked FunctionRef :=
  match get_own String.eqb (handlers_own t) name with
  | Some f => Own f
  | None =>
      match handlers_proto t with
      | ObjectPrototype =>
          match Object_prototype_get realm name with
          | Some b => Inherited b
          | None => Undefined
          end
      | NullPrototype => Undefined
      end
  end.

Section Builtins.
Context `{Numbers}.

Definition is_Object (v : option Json) : bool :=
  match v with
  | Some (JArray _) | Some (JObject _) => true
  | _ => false
  end.

(** [f(arg, ...)] where [f] was found on [Object.prototype] and [this] is
    [undefined] (a plain call in module code): [Object] and [toString]
    return, [isPrototypeOf] returns false for a primitive argument, every
    other call comes to [ToObject(this)] and throws; [Object.prototype]
    itself is not callable. *)
Definition call_builtin (b : Builtin) (arg : option Json) : Completion unit :=
  match b with
  | ObjectPrototypeItself => Abrupt TypeError
  | ObjectPrototypeFunction name =>
      if String.eqb name "constructor" || String.eqb name "toString"
      then Normal tt
      else if String.eqb name "isPrototypeOf" && negb (is_Object arg)
      then Normal tt
      else Abrupt TypeError
  end.
End Builtins.

(** ** server.ts: [createSocketGroup] *)

Module Server.
Section Group.
Context `{Codec}.

(** [SocketGroupKey = string | number | symbol] *)
Inductive SocketGroupKey : Type :=
| KString (s : string)
| KNumber (n : Number)
| KSymbol (id : nat).

(** [_sockets[key]] converts the key first: a number becomes its string. *)
Definition property_key (k : SocketGroupKey) : PropertyKey :=
  match k with
  | KString s => PString s
  | KNumber n => PString (Number_toString n)
  | KSymbol id => PSymbol id
  end.

Record CreateSocketOpts : Type := {
  onOpen : option FunctionRef;
  onClose : option FunctionRef;
  onError : option FunctionRef
}.

(** A WebSocket made by [Deno.upgradeWebSocket] with the listeners the
    group has assigned to it; each listener is a closure over the key
    (and, for [onmessage], over the handler table). *)
Record Socket : Type := {
  ws : WebSocket;
  onopen : option SocketGroupKey;
  onclose : option SocketGroupKey;
  onerror : option SocketGroupKey;
  onmessage : option (SocketGroupKey * HandlerTable)
}.

(** What the host application can observe besides the sockets: lines on
    [console.error], and calls into its own functions.  A call is recorded
    with its arguments; what the function then does (it may call the
    methods of the group) is a matter of further actions. *)
Inductive Event : Type :=
| console_error_parse (event_data : string) (e : Exception)
| call_option (f : FunctionRef) (key : SocketGroupKey)
| call_handler (f : FunctionRef) (data : option Json) (key : SocketGroupKey).

(** What [Deno.upgradeWebSocket] looks at in a request: whether its
    headers ask for a WebSocket upgrade, and whether it has been upgraded
    or answered already.  A request is described as it is when the call is
    made: the request a call has upgraded is, in any later call, one with
    [already_upgraded]. *)
Record Request : Type := {
  upgrade_headers : bool;
  already_upgraded : bool
}.

(** The request is one [Deno.upgradeWebSocket] accepts. *)
Definition upgradable (req : Request) : bool :=
  upgrade_headers req && negb (already_upgraded req).

(** The 101 response that completes the handshake of a socket. *)
Inductive Response : Type :=
| SwitchingProtocols (socket : nat).

(** The closure of [createSocketGroup]: [opts], the [_sockets] object (its
    own properties; its prototype is [Object.prototype], it was made by
    [{}]), the WebSocket objects by identity, and the observable trace. *)
Record Group : Type := {
  opts : CreateSocketOpts;
  _sockets : list (PropertyKey * nat);
  heap : list Socket;
  trace : list Event
}.

Definition createSocketGroup (o : CreateSocketOpts) : Group :=
  {| opts := o; _sockets := []; heap := []; trace := [] |}.

Definition set__sockets (p : list (PropertyKey * nat)) (g : Group) : Group :=
  {| opts := opts g; _sockets := p; heap := heap g; trace := trace g |}.

Definition set_heap (h : list Socket) (g : Group) : Group :=
  {| opts := opts g; _sockets := _sockets g; heap := h; trace := trace g |}.

Definition log (e : Event) (g : Group) : Group :=
  {| opts := opts g; _sockets := _sockets g; heap := heap g;
     trace := trace g ++ [e] |}.

Definition set_ws (w : WebSocket) (s : Socket) : Socket :=
  {| ws := w; onopen := onopen s; onclose := onclose s;
     onerror := onerror s; onmessage := onmessage s |}.

Definition set_onopen (k : SocketGroupKey) (s : Socket) : Socket :=
  {| ws := ws s; onopen := Some k; onclose := onclose s;
     onerror := onerror s; onmessage := onmessage s |}.

Definition set_onclose (k : SocketGroupKey) (s : Socket) : Socket :=
  {| ws := ws s; onopen := onopen s; onclose := Some k;
     onerror := onerror s; onmessage := onmessage s |}.

Definition set_onerror (k : SocketGroupKey) (s : Socket) : Socket :=
  {| ws := ws s; onopen := onopen s; onclose := onclose s;
     onerror := Some k; onmessage := onmessage s |}.

Definition set_onmessage (l : SocketGroupKey * HandlerTable) (s : Socket) : Socket :=
  {| ws := ws s; onopen := onopen s; onclose := onclose s;
     onerror := onerror s; onmessage := Some l |}.

(** *** The objects the code holds references to *)

(** A reference held in a local [const socket]: a WebSocket of the heap,
    or something [_sockets[k]] found on [Object.prototype]. *)
Definition Ref : Type := Looked nat.

(** [_sockets[k]] *)
Definition read__sockets (k : SocketGroupKey) : Js Group Ref :=
  gets (fun g => Get Deno ObjectPrototype (_sockets g) (property_key k)).

(** [_sockets[k] = socket]: every property of [Object.prototype] is a
    writable data property in Deno, so the assignment always lands on an
    own property. *)
Definition write__sockets (k : SocketGroupKey) (socket : nat) : Js Group unit :=
  modify (fun g =>
    set__sockets (set_own PropertyKey_eqb (_sockets g) (property_key k) socket) g).

(** [delete _sockets[k]] *)
Definition delete__sockets (k : SocketGroupKey) : Js Group unit :=
  modify (fun g =>
    set__sockets (delete_own PropertyKey_eqb (_sockets g) (property_key k)) g).

Definition update_socket (id : nat) (f : Socket -> Socket) : Js Group unit :=
  modify (fun g => set_heap (alter f id (heap g)) g).

(** the socket after [close()] has been called on it *)
Definition closed (s : Socket) : Socket := set_ws (WebSocket_close (ws s)) s.

(** [socket.close()] *)
Definition call_close (socket : Ref) : Js Group unit :=
  match socket with
  | Own id => update_socket id closed
  | Inherited _ => throw TypeError    (* socket.close is not a function *)
  | Undefined => throw TypeError
  end.

(** [socket.send(data)] once the argument has been evaluated (a reference
    to a socket that is not in the heap cannot arise: sockets are never
    discarded) *)
Definition call_send (socket : Ref) (data : string) : Js Group unit :=
  match socket with
  | Own id =>
      fun g =>
        match heap g !! id with
        | Some s =>
            match WebSocket_send data (ws s) with
            | Normal w => Returned tt (set_heap (<[id := set_ws w s]> (heap g)) g)
            | Abrupt e => Thrown e g
            end
        | None => Thrown TypeError g
        end
  | Inherited _ => throw TypeError    (* socket.send is not a function *)
  | Undefined => throw TypeError
  end.

(** [Deno.upgradeWebSocket(req, denoOpts)]: a TypeError when the headers
    of the request do not ask for a WebSocket upgrade, [Deno.errors.Http]
    when the request has been upgraded or answered already, and otherwise
    a new socket, still CONNECTING until the response has been sent
    ([denoOpts] only tunes the transport). *)
Definition Deno_upgradeWebSocket (req : Request) : Js Group (nat * Response) :=
  fun g =>
    if negb (upgrade_headers req) then Thrown TypeError g
    else if already_upgraded req then Thrown Http g
    else
      let id := length (heap g) in
      let s := {| ws := new_WebSocket; onopen := None; onclose := None;
                  onerror := None; onmessage := None |} in
      Returned (id, SwitchingProtocols id) (set_heap (heap g ++ [s]) g).

(** *** The methods of the group *)

Definition removeSocket (k : SocketGroupKey) : Js Group unit :=
  socket <- read__sockets k ;;
  if truthy socket then
    call_close socket ;;
    delete__sockets k
  else ret tt.

Definition addSocket (key : SocketGroupKey) (req : Request) : Js Group Response :=
  upgraded <- Deno_upgradeWebSocket req ;;
  let '(socket, response) := upgraded in
  o <- gets opts ;;
  (if provided (onOpen o) then update_socket socket (set_onopen key) else ret tt) ;;
  (if provided (onClose o) then update_socket socket (set_onclose key) else ret tt) ;;
  (if provided (onError o) then
     removeSocket key ;;
     update_socket socket (set_onerror key)
   else ret tt) ;;
  write__sockets key socket ;;
  ret response.

(** [null] is [None] *)
Definition getSocket (k : SocketGroupKey) : Js Group (option Ref) :=
  socket <- read__sockets k ;;
  if negb (truthy socket) then ret None
  else ret (Some socket).

(** The body of the [onmessage] listener installed by
    [setHandlersForSocket key handlers]. *)
Definition onmessage_listener (key : SocketGroupKey) (handlers : HandlerTable)
    (event_data : string) : Js Group unit :=
  match JSON_parse event_data with
  | None =>
      modify (log (console_error_parse event_data SyntaxError)) ;;
      ret tt
  | Some eventData =>
      if negb (Json_truthy eventData) then ret tt
      else
        name <- complete (ToPropertyKey (Json_get eventData "key")) ;;
        let handler := Get_handler Deno handlers name in
        if negb (truthy handler) then ret tt
        else
          match handler with
          | Own f => modify (log (call_handler f (Json_get eventData "data") key))
          | Inherited b => complete (call_builtin b (Json_get eventData "data"))
          | Undefined => ret tt
          end
  end.

Definition setHandlersForSocket (key : SocketGroupKey) (handlers : HandlerTable)
    : Js Group unit :=
  socket <- read__sockets key ;;
  if negb (truthy socket) then ret tt
  else
    match socket with
    | Own id => update_socket id (set_onmessage (key, handlers))
    | _ => ret tt   (* the property lands on a built-in function object *)
    end.

Definition send (key : SocketGroupKey) (message : Message) : Js Group unit :=
  socket <- read__sockets key ;;
  if negb (truthy socket) then ret tt
  else
    data <- complete (JSON_stringify message) ;;
    call_send socket data.

Definition broadcast (message : Message) : Js Group unit :=
  values <- gets (fun g => Object_values (_sockets g)) ;;
  for_of values (fun socket =>
    data <- complete (JSON_stringify message) ;;
    call_send (Own socket) data).

(** *** The listeners [addSocket key] assigns to the socket *)

Definition call_opt (f : option FunctionRef) (key : SocketGroupKey) : Js Group unit :=
  match f with
  | Some f => modify (log (call_option f key))
  | None => ret tt
  end.

Definition onopen_listener (key : SocketGroupKey) : Js Group unit :=
  o <- gets opts ;; call_opt (onOpen o) key.

Definition onclose_listener (key : SocketGroupKey) : Js Group unit :=
  removeSocket key ;;
  o <- gets opts ;; call_opt (onClose o) key.

Definition onerror_listener (key : SocketGroupKey) : Js Group unit :=
  o <- gets opts ;; call_opt (onError o) key.

(** *** Events the runtime delivers to a socket of the group

    The runtime opens a socket whose handshake is done, delivers text
    frames to a socket that is OPEN, and marks a socket CLOSED before it
    reports an error or the end of the connection.  It delivers the open
    event and the close event once per socket; nothing below relies on
    that. *)

Definition state_of (id : nat) : Js Group (option ReadyState) :=
  gets (fun g => readyState ∘ ws <$> heap g !! id).

Definition listener_of {A} (slot : Socket -> option A) (id : nat) : Js Group (option A) :=
  gets (fun g => s ← heap g !! id; slot s).

(** The handshake is done: the socket is OPEN and [onopen] runs.  Deno
    opens the socket all the same when [close()] was called on it during
    the handshake (it is CLOSING then); the event is admitted on every
    socket that is CONNECTING or CLOSING, which covers that case. *)
Definition open_event (id : nat) : Js Group unit :=
  state <- state_of id ;;
  match state with
  | Some CONNECTING | Some CLOSING =>
      update_socket id (fun s => set_ws (set_readyState OPEN (ws s)) s) ;;
      l <- listener_of onopen id ;;
      match l with
      | Some key => onopen_listener key
      | None => ret tt
      end
  | _ => ret tt
  end.

(** The connection is gone: the socket is CLOSED and [onclose] runs. *)
Definition close_event (id : nat) : Js Group unit :=
  state <- state_of id ;;
  match state with
  | None => ret tt
  | Some _ =>
      update_socket id (fun s => set_ws (set_readyState CLOSED (ws s)) s) ;;
      l <- listener_of onclose id ;;
      match l with
      | Some key => onclose_listener key
      | None => ret tt
      end
  end.

(** The transport has failed: the socket is CLOSED and [onerror] runs (a
    close event follows). *)
Definition error_event (id : nat) : Js Group unit :=
  state <- state_of id ;;
  match state with
  | None => ret tt
  | Some _ =>
      update_socket id (fun s => set_ws (set_readyState CLOSED (ws s)) s) ;;
      l <- listener_of onerror id ;;
      match l with
      | Some key => onerror_listener key
      | None => ret tt
      end
  end.

(** A text frame has arrived: [onmessage] runs with [event.data]. *)
Definition message_event (id : nat) (event_data : string) : Js Group unit :=
  state <- state_of id ;;
  match state with
  | Some OPEN =>
      l <- listener_of onmessage id ;;
      match l with
      | Some (key, handlers) => onmessage_listener key handlers event_data
      | None => ret tt
      end
  | _ => ret tt
  end.

(** *** Notions used to state the properties *)

(** The socket [addSocket key] makes, with the listeners it assigns. *)
Definition fresh_socket (o : CreateSocketOpts) (key : SocketGroupKey) : Socket :=
  {| ws := new_WebSocket;
     onopen := if provided (onOpen o) then Some key else None;
     onclose := if provided (onClose o) then Some key else None;
     onerror := if provided (onError o) then Some key else None;
     onmessage := None |}.

(** Whether the key, as a property key, names a member of Deno's
    [Object.prototype]. *)
Definition names_prototype_member (k : SocketGroupKey) : bool :=
  match property_key k with
  | PString name => string_mem name Object_prototype_functions
  | PSymbol _ => false
  end.

(** One turn of the loop of [broadcast]. *)
Definition broadcast_step (message : Message) (socket : nat) : Js Group unit :=
  data <- complete (JSON_stringify message) ;;
  call_send (Own socket) data.

(** The socket with [n] more copies of [data] on its wire. *)
Definition received (n : nat) (data : string) (s : Socket) : Socket :=
  set_ws {| readyState := readyState (ws s);
            sent := sent (ws s) ++ repeat data n;
            close_calls := close_calls (ws s) |} s.

Definition is_OPEN (g : Group) (id : nat) : bool :=
  match heap g !! id with
  | Some s => match readyState (ws s) with OPEN => true | _ => false end
  | None => false
  end.


(** The socket after one [send(data)] that has returned: an OPEN socket
    has the text on its wire, a closing or closed one is as it was. *)
Definition served (data : string) (s : Socket) : Socket :=
  match readyState (ws s) with
  | OPEN => received 1 data s
  | CONNECTING | CLOSING | CLOSED => s
  end.

Fixpoint distinct (l : list nat) : bool :=
  match l with
  | [] => true
  | x :: rest => negb (existsb (Nat.eqb x) rest) && distinct rest
  end.

(** The registry refers to existing sockets, and to each of them once. *)
Definition registry_ok (g : Group) : bool :=
  distinct (map snd (_sockets g))
  && forallb (fun id : nat => (id <? length (heap g))%nat) (map snd (_sockets g)).

(** One thing that happens to a group: the host application (a handler
    included) calls a method, or the runtime delivers an event. *)
Inductive Action : Type :=
| do_addSocket (key : SocketGroupKey) (req : Request)
| do_getSocket (key : SocketGroupKey)
| do_removeSocket (key : SocketGroupKey)
| do_setHandlersForSocket (key : SocketGroupKey) (handlers : HandlerTable)
| do_send (key : SocketGroupKey) (message : Message)
| do_broadcast (message : Message)
| on_open (socket : nat)
| on_close (socket : nat)
| on_error (socket : nat)
| on_message (socket : nat) (event_data : string).

(** The group after the action, whether the call returned or threw. *)
Definition perform (a : Action) (g : Group) : Group :=
  match a with
  | do_addSocket key req => final (addSocket key req g)
  | do_getSocket key => final (getSocket key g)
  | do_removeSocket key => final (removeSocket key g)
  | do_setHandlersForSocket key handlers => final (setHandlersForSocket key handlers g)
  | do_send key message => final (send key message g)
  | do_broadcast message => final (broadcast message g)
  | on_open socket => final (open_event socket g)
  | on_close socket => final (close_event socket g)
  | on_error socket => final (error_event socket g)
  | on_message socket event_data => final (message_event socket event_data g)
  end.

Definition run (actions : list Action) (g : Group) : Group :=
  fold_left (fun g a => perform a g) actions g.

(** [g'] has the sockets of [g] and registers none that [g] did not. *)
Definition registers_nothing (g g' : Group) : Prop :=
  length (heap g') = length (heap g) /\ _sockets g' `sublist_of` _sockets g.

(** A step that, however it ends, has registered nothing new. *)
Definition keeps_registry {A} (m : Js Group A) : Prop :=
  forall g, registers_nothing g (final (m g)).
End Group.
End Server.

(** ** client.ts: [connect] *)

Module Client.
Section Connection.
Context `{Codec}.

Record ConnectOpts : Type := {
  onOpen : option FunctionRef;
  onClose : option FunctionRef;
  onError : option FunctionRef
}.

Inductive PromiseState : Type :=
| Pending
| Fulfilled      (* resolved with clientSocket *)
| Rejected.

Inductive Event : Type :=
| console_error_parse (event_data : string) (e : Exception)
| console_error_serialize (message : Message) (e : Exception)
| call_option (f : FunctionRef)
| call_handler (f : FunctionRef) (data : option Json).

(** The closure of [connect]: [opts], [_socket], [_handlers] ([None] while
    the variable has never been assigned), the returned promise, and the
    observable trace; [realm] says where the module runs. *)
Record Connection : Type := {
  realm : Realm;
  opts : ConnectOpts;
  _socket : WebSocket;
  _handlers : option HandlerTable;
  promise : PromiseState;
  trace : list Event
}.

Definition connect (r : Realm) (o : ConnectOpts) : Connection :=
  {| realm := r; opts := o; _socket := new_WebSocket; _handlers := None;
     promise := Pending; trace := [] |}.

Definition set__socket (w : WebSocket) (c : Connection) : Connection :=
  {| realm := realm c; opts := opts c; _socket := w; _handlers := _handlers c;
     promise := promise c; trace := trace c |}.

Definition set__handlers (t : HandlerTable) (c : Connection) : Connection :=
  {| realm := realm c; opts := opts c; _socket := _socket c; _handlers := Some t;
     promise := promise c; trace := trace c |}.

(** [res] and [rej] only act on a pending promise. *)
Definition settle (p : PromiseState) (c : Connection) : Connection :=
  {| realm := realm c; opts := opts c; _socket := _socket c;
     _handlers := _handlers c;
     promise := match promise c with Pending => p | settled => settled end;
     trace := trace c |}.

Definition log (e : Event) (c : Connection) : Connection :=
  {| realm := realm c; opts := opts c; _socket := _socket c;
     _handlers := _handlers c; promise := promise c; trace := trace c ++ [e] |}.

(** [_socket.send(data)] *)
Definition socket_send (data : string) : Js Connection unit :=
  fun c => match WebSocket_send data (_socket c) with
           | Normal w => Returned tt (set__socket w c)
           | Abrupt e => Thrown e c
           end.

(** [_socket.close()] *)
Definition socket_close : Js Connection unit :=
  modify (fun c => set__socket (WebSocket_close (_socket c)) c).

(** *** The methods of [clientSocket] *)

Definition send (message : Message) : Js Connection unit :=
  serialized <-
    try_catch
      (s <- complete (JSON_stringify message) ;; ret (Some s))
      (fun e =>
         (* the template literal converts [message] before anything is logged *)
         complete (Message_ToString message) ;;
         modify (log (console_error_serialize message e)) ;;
         ret None) ;;
  match serialized with
  | None => ret tt                       (* the [return] of the catch block *)
  | Some serialized => socket_send serialized
  end.

Definition close : Js Connection unit := socket_close.

Definition setHandlersForSocket (handlers : HandlerTable) : Js Connection unit :=
  modify (set__handlers handlers).

(** *** The listeners [connect] assigns to [_socket] *)

Definition call_opt (f : option FunctionRef) : Js Connection unit :=
  match f with
  | Some f => modify (log (call_option f))
  | None => ret tt
  end.

Definition onopen_listener : Js Connection unit :=
  modify (settle Fulfilled) ;;
  o <- gets opts ;; call_opt (onOpen o).

Definition onclose_listener : Js Connection unit :=
  socket_close ;;
  o <- gets opts ;; call_opt (onClose o).

Definition onerror_listener : Js Connection unit :=
  o <- gets opts ;; call_opt (onError o) ;;
  modify (settle Rejected) ;;
  socket_close.

Definition onmessage_listener (event_data : string) : Js Connection unit :=
  match JSON_parse event_data with
  | None =>
      modify (log (console_error_parse event_data SyntaxError)) ;;
      ret tt
  | Some eventData =>
      if negb (Json_truthy eventData) then ret tt
      else
        let key := Json_get eventData "key" in
        let data := Json_get eventData "data" in
        handlers <- gets _handlers ;;
        match handlers with
        | None => throw TypeError    (* _handlers is undefined *)
        | Some handlers =>
            r <- gets realm ;;
            name <- complete (ToPropertyKey key) ;;
            let handler := Get_handler r handlers name in
            if negb (truthy handler) then ret tt
            else
              match handler with
              | Own f => modify (log (call_handler f data))
              | Inherited b => complete (call_builtin b data)
              | Undefined => ret tt
              end
        end
  end.

(** *** Events the runtime delivers to [_socket] *)

Definition open_event : Js Connection unit :=
  state <- gets (fun c => readyState (_socket c)) ;;
  match state with
  | CONNECTING =>
      modify (fun c => set__socket (set_readyState OPEN (_socket c)) c) ;;
      onopen_listener
  | _ => ret tt
  end.

(** The connection is gone: the socket is CLOSED and [onclose] runs. *)
Definition close_event : Js Connection unit :=
  modify (fun c => set__socket (set_readyState CLOSED (_socket c)) c) ;;
  onclose_listener.

(** The connection has failed: the socket is CLOSED and [onerror] runs (a
    close event follows). *)
Definition error_event : Js Connection unit :=
  modify (fun c => set__socket (set_readyState CLOSED (_socket c)) c) ;;
  onerror_listener.

Definition message_event (event_data : string) : Js Connection unit :=
  state <- gets (fun c => readyState (_socket c)) ;;
  match state with
  | OPEN => onmessage_listener event_data
  | _ => ret tt
  end.
End Connection.
End Client.

(** ** A platform for the worked examples

    Numbers are the non-negative safe integers (below 2^53), which
    [Number::toString] spells in decimal; the messages and the inbound
    texts are the handful the examples use, each with what
    [JSON.stringify], a template literal and [JSON.parse] make of it.  Any
    other text is taken as malformed, so the instance is only ever applied
    to the listed ones and to [garbage]. *)

Module Examples.
Record SafeInteger : Type := {
  magnitude : N;
  is_safe : (magnitude <? 9007199254740992)%N = true
}.

#[export] Instance numbers : Numbers := {|
  Number := SafeInteger;
  Number_toString := fun n => NilZero.string_of_uint (N.to_uint (magnitude n));
  Number_is_zero := fun n => N.eqb 0 (magnitude n)
|}.

Definition zero : Number := {| magnitude := 0; is_safe := eq_refl |}.
Definition one : Number := {| magnitude := 1; is_safe := eq_refl |}.

Definition quoted (s : string) : string :=
  String (ascii_of_nat 34) s ++ String (ascii_of_nat 34) "".

(** the text of an envelope whose tag is a string *)
Definition envelope_text (key data : string) : string :=
  "{" ++ quoted "key" ++ ":" ++ quoted key ++ "," ++ quoted "data" ++ ":" ++ data ++ "}".

Inductive ExampleMessage : Type :=
| Ping           (* { key: "ping", data: null } *)
| Tally          (* { key: "tally", data: 10n }, a BigInt *)
| Bare.          (* the same made by Object.create(null): it has no toString *)

Definition ping_text : string := envelope_text "ping" "null".

Definition stringify (m : ExampleMessage) : Completion string :=
  match m with
  | Ping => Normal ping_text
  | Tally | Bare => Abrupt TypeError
  end.

(** [`${m}`] *)
Definition template (m : ExampleMessage) : Completion string :=
  match m with
  | Ping | Tally => Normal "[object Object]"
  | Bare => Abrupt TypeError
  end.

(** [{"data":1}]: an object without a tag *)
Definition untagged_text : string := "{" ++ quoted "data" ++ ":1}".

(** [{"key":{"toString":0},"data":null}]: the tag is an object that
    cannot be made a property key *)
Definition unconvertible_text : string :=
  "{" ++ quoted "key" ++ ":{" ++ quoted "toString" ++ ":0},"
      ++ quoted "data" ++ ":null}".

(** not JSON at all *)
Definition garbage : string := "ping!".

Definition parse_table : list (string * Json) :=
  [ (ping_text, JObject [("key", JString "ping"); ("data", JNull)]);
    (envelope_text "unknown_tag" "{}",
     JObject [("key", JString "unknown_tag"); ("data", JObject [])]);
    (envelope_text "valueOf" "null",
     JObject [("key", JString "valueOf"); ("data", JNull)]);
    (untagged_text, JObject [("data", JNumber one)]);
    (unconvertible_text,
     JObject [("key", JObject [("toString", JNumber zero)]); ("data", JNull)]);
    ("null", JNull) ].

#[export] Instance codec : Codec := {|
  Message := ExampleMessage;
  JSON_stringify := stringify;
  Message_ToString := template;
  JSON_parse := get_own String.eqb parse_table
|}.

Definition ping : Message := Ping.
Definition tally : Message := Tally.
Definition bare : Message := Bare.

Import Server.

Definition no_opts : CreateSocketOpts :=
  {| onOpen := None; onClose := None; onError := None |}.

Definition with_onError : CreateSocketOpts :=
  {| onOpen := None; onClose := None; onError := Some (Fn 0) |}.

Definition upgrade : Request :=
  {| upgrade_headers := true; already_upgraded := false |}.

(** The same request once a call has upgraded it. *)
Definition upgraded : Request :=
  {| upgrade_headers := true; already_upgraded := true |}.

(** A plain HTTP request. *)
Definition plain : Request :=
  {| upgrade_headers := false; already_upgraded := false |}.

(** An object literal with one handler, for "ping". *)
Definition ping_handlers : HandlerTable :=
  {| handlers_own := [("ping", Fn 7)]; handlers_proto := ObjectPrototype |}.

Definition register_abc : list Action :=
  [ do_addSocket (KString "a") upgrade;
    do_addSocket (KString "b") upgrade;
    do_addSocket (KString "c") upgrade ].

(** One socket under "a", its handshake done. *)
Definition group_a (o : CreateSocketOpts) : Group :=
  run [do_addSocket (KString "a") upgrade; on_open 0] (createSocketGroup o).

(** Sockets 0, 1, 2 under "a", "b", "c", none of them open yet. *)
Definition group_abc : Group := run register_abc (createSocketGroup no_opts).

(** The same with every handshake done. *)
Definition group_abc_open : Group :=
  run (register_abc ++ [on_open 0; on_open 1; on_open 2]) (createSocketGroup no_opts).

(** The same with "b" still in its handshake. *)
Definition group_abc_b_connecting : Group :=
  run (register_abc ++ [on_open 0; on_open 2]) (createSocketGroup no_opts).

(** The three open, and then the connection of "b" has ended: socket 1 is
    CLOSED and still registered. *)
Definition group_abc_b_closed : Group :=
  run (register_abc ++ [on_open 0; on_open 1; on_open 2; on_close 1])
    (createSocketGroup no_opts).

(** "a", "b", "c" open in a group made with an [onError] option. *)
Definition group_abc_onError : Group :=
  run (register_abc ++ [on_open 0; on_open 1; on_open 2])
    (createSocketGroup with_onError).

Definition with_onClose : CreateSocketOpts :=
  {| onOpen := None; onClose := Some (Fn 1); onError := None |}.

(** "a" registered twice in a group made with an [onClose] option: socket
    1 has replaced socket 0, and both are open. *)
Definition group_a_replaced : Group :=
  run [ do_addSocket (KString "a") upgrade; on_open 0;
        do_addSocket (KString "a") upgrade; on_open 1 ]
    (createSocketGroup with_onClose).

(** An open socket under a Symbol beside an open socket under "a". *)
Definition group_with_symbol : Group :=
  run [do_addSocket (KSymbol 0) upgrade; on_open 1] (group_a no_opts).

(** Socket 0 under "a" with the "ping" handlers bound. *)
Definition group_a_listening : Group :=
  run [do_setHandlersForSocket (KString "a") ping_handlers] (group_a no_opts).

Definition no_client_opts : Client.ConnectOpts :=
  {| Client.onOpen := None; Client.onClose := None; Client.onError := None |}.

(** A client whose socket has opened; [setHandlersForSocket] not called. *)
Definition client_open : Client.Connection :=
  final (Client.open_event (Client.connect Browser no_client_opts)).

(** The same after [setHandlersForSocket] with the "ping" handlers. *)
Definition client_listening : Client.Connection :=
  final (Client.setHandlersForSocket ping_handlers client_open).
End Examples.

(** * Properties *)

Local Close Scope string_scope.
Local Open Scope list_scope.

(** ** Own properties *)

Lemma PropertyKey_eqb_eq (a b : PropertyKey) :
  PropertyKey_eqb a b = true <-> a = b.
Proof.
  destruct a as [s|i], b as [t|j]; simpl.
  - rewrite String.eqb_eq. split; congruence.
  - split; discriminate.
  - split; discriminate.
  - rewrite Nat.eqb_eq. split; congruence.
Qed.

Lemma PropertyKey_eqb_refl (a : PropertyKey) : PropertyKey_eqb a a = true.
Proof. now apply PropertyKey_eqb_eq. Qed.

Lemma PropertyKey_eqb_neq (a b : PropertyKey) :
  a <> b -> PropertyKey_eqb a b = false.
Proof.
  intros Hne. destruct (PropertyKey_eqb a b) eqn:E; [|reflexivity].
  apply PropertyKey_eqb_eq in E. contradiction.
Qed.

Section OwnPropertyFacts.
Context {K V : Type} (eqb : K -> K -> bool).
Hypothesis eqb_eq : forall a b, eqb a b = true <-> a = b.

Local Lemma eqb_same a : eqb a a = true.
Proof. now apply eqb_eq. Qed.

Local Lemma eqb_other a b : a <> b -> eqb a b = false.
Proof.
  intros Hne. destruct (eqb a b) eqn:E; [|reflexivity].
  apply eqb_eq in E. contradiction.
Qed.

Lemma get_own_set_own (props : list (K * V)) k v :
  get_own eqb (set_own eqb props k v) k = Some v.
Proof.
  induction props as [|[k' v'] rest IH]; simpl.
  - now rewrite eqb_same.
  - destruct (eqb k' k) eqn:E; simpl; rewrite E; [reflexivity|exact IH].
Qed.

Lemma get_own_set_own_other (props : list (K * V)) k v k' :
  k <> k' -> get_own eqb (set_own eqb props k v) k' = get_own eqb props k'.
Proof.
  intros Hne. induction props as [|[k0 v0] rest IH]; simpl.
  - now rewrite eqb_other.
  - destruct (eqb k0 k) eqn:E; simpl.
    + apply eqb_eq in E. subst k0. now rewrite eqb_other.
    + now rewrite IH.
Qed.

Lemma get_own_delete_own (props : list (K * V)) k :
  get_own eqb (delete_own eqb props k) k = None.
Proof.
  induction props as [|[k' v'] rest IH]; simpl; [reflexivity|].
  destruct (eqb k' k) eqn:E; simpl; [exact IH|]. now rewrite E.
Qed.

Lemma get_own_delete_own_other (props : list (K * V)) k k' :
  k <> k' -> get_own eqb (delete_own eqb props k) k' = get_own eqb props k'.
Proof.
  intros Hne. induction props as [|[k0 v0] rest IH]; simpl; [reflexivity|].
  destruct (eqb k0 k) eqn:E; simpl.
  - apply eqb_eq in E. subst k0. now rewrite eqb_other.
  - now rewrite IH.
Qed.

Lemma set_own_absent (props : list (K * V)) k v :
  get_own eqb props k = None -> set_own eqb props k v = props ++ [(k, v)].
Proof.
  induction props as [|[k' v'] rest IH]; simpl; [reflexivity|].
  destruct (eqb k' k); [discriminate|]. intros Hn. now rewrite IH.
Qed.

Lemma delete_own_absent (props : list (K * V)) k :
  get_own eqb props k = None -> delete_own eqb props k = props.
Proof.
  induction props as [|[k' v'] rest IH]; simpl; [reflexivity|].
  destruct (eqb k' k); [discriminate|]. intros Hn. now rewrite IH.
Qed.

(** Deleting and then assigning moves the key to the end. *)
Lemma set_own_delete_own (props : list (K * V)) k v :
  set_own eqb (delete_own eqb props k) k v = delete_own eqb props k ++ [(k, v)].
Proof. apply set_own_absent, get_own_delete_own. Qed.

Lemma get_own_elem_of (props : list (K * V)) k v :
  get_own eqb props k = Some v -> (k, v) ∈ props.
Proof.
  induction props as [|[k' v'] rest IH]; simpl; [discriminate|].
  destruct (eqb k' k) eqn:E.
  - intros [= ->]. apply eqb_eq in E. subst. left.
  - intros Hg. right. now apply IH.
Qed.

Lemma elem_of_set_own (props : list (K * V)) k v x :
  x ∈ set_own eqb props k v -> x = (k, v) \/ x ∈ props.
Proof.
  induction props as [|[k' v'] rest IH]; simpl.
  - intros Hx. apply list_elem_of_singleton in Hx. now left.
  - destruct (eqb k' k) eqn:E.
    + apply eqb_eq in E. subst k'. intros Hx.
      apply elem_of_cons in Hx as [->|Hx]; [now left|right; now right].
    + intros Hx. apply elem_of_cons in Hx as [->|Hx]; [right; left|].
      destruct (IH Hx) as [->|Hr]; [now left|right; now right].
Qed.

Lemma elem_of_delete_own (props : list (K * V)) k x :
  x ∈ delete_own eqb props k -> x ∈ props.
Proof.
  induction props as [|[k' v'] rest IH]; simpl; [easy|].
  destruct (eqb k' k).
  - intros Hx. right. now apply IH.
  - intros Hx. apply elem_of_cons in Hx as [->|Hx]; [left|right; now apply IH].
Qed.
End OwnPropertyFacts.

(** ** Enumeration *)

Section EnumerationFacts.
Context {V : Type}.

Lemma insert_by_index_Permutation (x : N * V) l :
  insert_by_index x l ≡ₚ x :: l.
Proof.
  induction l as [|y rest IH]; simpl; [reflexivity|].
  destruct (fst x <=? fst y)%N; [reflexivity|].
  rewrite IH. apply Permutation_swap.
Qed.

Lemma sort_by_index_Permutation (l : list (N * V)) : sort_by_index l ≡ₚ l.
Proof.
  induction l as [|x rest IH]; simpl; [reflexivity|].
  rewrite insert_by_index_Permutation. now rewrite IH.
Qed.

(** [sort_by_index] does sort: indices come out in ascending order. *)
Lemma insert_by_index_Sorted (x : N * V) l :
  Sorted (fun a b => (fst a <= fst b)%N) l ->
  Sorted (fun a b => (fst a <= fst b)%N) (insert_by_index x l).
Proof.
  induction 1 as [|y rest Hs IH Hhd]; simpl.
  - repeat constructor.
  - destruct (fst x <=? fst y)%N eqn:E.
    + apply N.leb_le in E. constructor; [now constructor|now constructor].
    + apply N.leb_gt in E. constructor; [exact IH|].
      destruct rest as [|z rest']; simpl.
      * constructor. lia.
      * destruct (fst x <=? fst z)%N; constructor; [lia|].
        now inversion Hhd.
Qed.

Lemma sort_by_index_Sorted (l : list (N * V)) :
  Sorted (fun a b => (fst a <= fst b)%N) (sort_by_index l).
Proof.
  induction l as [|x rest IH]; simpl; [constructor|].
  now apply insert_by_index_Sorted.
Qed.

Lemma string_keyed_split (props : list (PropertyKey * V)) :
  string_keyed props ≡ₚ map snd (index_properties props) ++ named_properties props.
Proof.
  induction props as [|[[s|i] v] rest IH]; simpl; [reflexivity| |exact IH].
  destruct (array_index s); simpl.
  - now rewrite IH.
  - rewrite IH. apply Permutation_middle.
Qed.

(** [Object.values] lists exactly the values stored under String keys. *)
Lemma Object_values_Permutation (props : list (PropertyKey * V)) :
  Object_values props ≡ₚ string_keyed props.
Proof.
  unfold Object_values. rewrite string_keyed_split.
  apply Permutation_app_tail, Permutation_map, sort_by_index_Permutation.
Qed.

Lemma elem_of_string_keyed (props : list (PropertyKey * V)) v :
  v ∈ string_keyed props <-> exists s, (PString s, v) ∈ props.
Proof.
  induction props as [|[[s|i] x] rest IH]; simpl.
  - split; [intros Hv; inversion Hv|intros [s Hs]; inversion Hs].
  - rewrite elem_of_cons, IH. split.
    + intros [->|[t Ht]]; [exists s; left|exists t; now right].
    + intros [t Ht]. apply elem_of_cons in Ht as [[= -> ->]|Ht];
        [now left|right; now exists t].
  - rewrite IH. split.
    + intros [t Ht]. exists t. now right.
    + intros [t Ht]. apply elem_of_cons in Ht as [[=]|Ht]. now exists t.
Qed.

Lemma string_keyed_sublist (props : list (PropertyKey * V)) :
  string_keyed props `sublist_of` map snd props.
Proof.
  induction props as [|[[s|i] x] rest IH]; simpl.
  - constructor.
  - now constructor.
  - now constructor.
Qed.

Lemma NoDup_Object_values (props : list (PropertyKey * V)) :
  NoDup (map snd props) -> NoDup (Object_values props).
Proof.
  intros Hnd. rewrite Object_values_Permutation.
  eapply sublist_NoDup; [exact Hnd|apply string_keyed_sublist].
Qed.
End EnumerationFacts.

(** ** Loops *)

Lemma for_of_app {S A} (xs ys : list A) (body : A -> Js S unit) (s : S) :
  for_of (xs ++ ys) body s =
  match for_of xs body s with
  | Returned _ s' => for_of ys body s'
  | Thrown e s' => Thrown e s'
  end.
Proof.
  revert s. induction xs as [|x rest IH]; intros s; simpl; [reflexivity|].
  unfold bind. destruct (body x s) as [[] s'|e s']; [apply IH|reflexivity].
Qed.

(** A loop whose body throws at [x] ends there: nothing after [x] runs. *)
Lemma for_of_aborts {S A} (before after : list A) (x : A)
    (body : A -> Js S unit) (s s1 s2 : S) (e : Exception) :
  for_of before body s = Returned tt s1 ->
  body x s1 = Thrown e s2 ->
  for_of (before ++ x :: after) body s = Thrown e s2.
Proof.
  intros Hb Hx. rewrite for_of_app, Hb. simpl. unfold bind. now rewrite Hx.
Qed.

(** ** The socket group *)

Section GroupFacts.
Context `{Codec}.
Import Server.

Lemma alter_last {A} (f : A -> A) (l : list A) (x : A) :
  alter f (length l) (l ++ [x]) = l ++ [f x].
Proof.
  replace (length l) with (length l + 0) by lia. now rewrite alter_app_r.
Qed.

Lemma alter_at_end {A} (f : A -> A) (l : list A) (n : nat) (x : A) :
  n = length l -> alter f n (l ++ [x]) = l ++ [f x].
Proof. intros ->. apply alter_last. Qed.

Lemma set_heap_set_heap h h' (g : Group) :
  set_heap h (set_heap h' g) = set_heap h g.
Proof. reflexivity. Qed.

(** *** removeSocket *)

Lemma removeSocket_own g k id :
  get_own PropertyKey_eqb (_sockets g) (property_key k) = Some id ->
  removeSocket k g =
  Returned tt
    (set__sockets (delete_own PropertyKey_eqb (_sockets g) (property_key k))
       (set_heap (alter closed id (heap g)) g)).
Proof.
  intros Hown. unfold removeSocket, bind, read__sockets, gets, Get.
  now rewrite Hown.
Qed.

Lemma removeSocket_undefined g k :
  Get Deno ObjectPrototype (_sockets g) (property_key k) = Undefined ->
  removeSocket k g = Returned tt g.
Proof.
  intros Hu. unfold removeSocket, bind, read__sockets, gets. now rewrite Hu.
Qed.

Lemma removeSocket_inherited g k b :
  Get Deno ObjectPrototype (_sockets g) (property_key k) = Inherited b ->
  removeSocket k g = Thrown TypeError g.
Proof.
  intros Hi. unfold removeSocket, bind, read__sockets, gets. now rewrite Hi.
Qed.

(** *** getSocket *)

Lemma getSocket_eq g k :
  getSocket k g =
  Returned (match Get Deno ObjectPrototype (_sockets g) (property_key k) with
            | Undefined => None
            | found => Some found
            end) g.
Proof.
  unfold getSocket, bind, read__sockets, gets.
  now destruct (Get Deno ObjectPrototype (_sockets g) (property_key k)).
Qed.

(** *** addSocket *)

(** [Deno.upgradeWebSocket] by what it comes to. *)
Lemma Deno_upgradeWebSocket_eq req g :
  Deno_upgradeWebSocket req g =
  if upgradable req then
    Returned (length (heap g), SwitchingProtocols (length (heap g)))
      (set_heap (heap g ++ [{| ws := new_WebSocket; onopen := None; onclose := None;
                               onerror := None; onmessage := None |}]) g)
  else Thrown (if upgrade_headers req then Http else TypeError) g.
Proof.
  unfold Deno_upgradeWebSocket, upgradable.
  now destruct (upgrade_headers req), (already_upgraded req).
Qed.

Lemma addSocket_not_upgradable g key req :
  upgradable req = false ->
  addSocket key req g = Thrown (if upgrade_headers req then Http else TypeError) g.
Proof.
  intros Hu. unfold addSocket, bind. now rewrite Deno_upgradeWebSocket_eq, Hu.
Qed.

Lemma addSocket_without_onError g key req :
  upgradable req = true ->
  onError (opts g) = None ->
  addSocket key req g =
  Returned (SwitchingProtocols (length (heap g)))
    (set__sockets
       (set_own PropertyKey_eqb (_sockets g) (property_key key) (length (heap g)))
       (set_heap (heap g ++ [fresh_socket (opts g) key]) g)).
Proof.
  intros Hu He. unfold addSocket, bind; rewrite Deno_upgradeWebSocket_eq; unfold gets.
  rewrite Hu. simpl. unfold fresh_socket. rewrite He.
  destruct (onOpen (opts g)), (onClose (opts g)); simpl;
    unfold bind, update_socket, modify, write__sockets, ret; simpl;
    rewrite ?alter_last; reflexivity.
Qed.

Lemma addSocket_onError_own g key req f s0 :
  upgradable req = true ->
  onError (opts g) = Some f ->
  get_own PropertyKey_eqb (_sockets g) (property_key key) = Some s0 ->
  s0 < length (heap g) ->
  addSocket key req g =
  Returned (SwitchingProtocols (length (heap g)))
    (set__sockets
       (delete_own PropertyKey_eqb (_sockets g) (property_key key)
          ++ [(property_key key, length (heap g))])
       (set_heap (alter closed s0 (heap g) ++ [fresh_socket (opts g) key]) g)).
Proof.
  intros Hu He Hown Hlt. unfold addSocket, bind; rewrite Deno_upgradeWebSocket_eq; unfold gets.
  rewrite Hu. simpl. unfold fresh_socket. rewrite He. simpl.
  assert (Hrm : forall x,
    removeSocket key (set_heap (heap g ++ [x]) g) =
    Returned tt
      (set__sockets (delete_own PropertyKey_eqb (_sockets g) (property_key key))
         (set_heap (alter closed s0 (heap g) ++ [x]) g))).
  { intros x. rewrite (removeSocket_own _ _ s0) by exact Hown. simpl.
    now rewrite alter_app_l. }
  assert (Hlen : length (heap g) = length (alter closed s0 (heap g)))
    by now rewrite length_alter.
  destruct (onOpen (opts g)), (onClose (opts g)); simpl;
    unfold bind, update_socket, modify, write__sockets, ret; simpl;
    rewrite ?alter_last, ?set_heap_set_heap; unfold bind; rewrite Hrm; simpl;
    rewrite set_own_delete_own;
    rewrite alter_at_end by exact Hlen; reflexivity.
Qed.

Lemma addSocket_onError_undefined g key req f :
  upgradable req = true ->
  onError (opts g) = Some f ->
  Get Deno ObjectPrototype (_sockets g) (property_key key) = Undefined ->
  addSocket key req g =
  Returned (SwitchingProtocols (length (heap g)))
    (set__sockets (_sockets g ++ [(property_key key, length (heap g))])
       (set_heap (heap g ++ [fresh_socket (opts g) key]) g)).
Proof.
  intros Hu He Hund. unfold addSocket, bind; rewrite Deno_upgradeWebSocket_eq; unfold gets.
  rewrite Hu. simpl. unfold fresh_socket. rewrite He. simpl.
  assert (Hrm : forall x,
    removeSocket key (set_heap (heap g ++ [x]) g) =
    Returned tt (set_heap (heap g ++ [x]) g)).
  { intros x. now apply removeSocket_undefined. }
  assert (Habs : get_own PropertyKey_eqb (_sockets g) (property_key key) = None).
  { unfold Get in Hund.
    now destruct (get_own PropertyKey_eqb (_sockets g) (property_key key)). }
  destruct (onOpen (opts g)), (onClose (opts g)); simpl;
    unfold bind, update_socket, modify, write__sockets, ret; simpl;
    rewrite ?alter_last, ?set_heap_set_heap; unfold bind; rewrite Hrm; simpl;
    rewrite alter_last, set_own_absent by (apply PropertyKey_eqb_eq || exact Habs);
    reflexivity.
Qed.

(** With [onError] given, a key that names a member of [Object.prototype]
    and holds no socket makes [addSocket] throw: the socket it has just
    made is never stored. *)
Lemma addSocket_onError_inherited g key req f b :
  upgradable req = true ->
  onError (opts g) = Some f ->
  Get Deno ObjectPrototype (_sockets g) (property_key key) = Inherited b ->
  exists g', addSocket key req g = Thrown TypeError g'
             /\ _sockets g' = _sockets g.
Proof.
  intros Hu He Hinh. unfold addSocket, bind; rewrite Deno_upgradeWebSocket_eq; unfold gets.
  rewrite Hu. simpl. rewrite He. simpl.
  assert (Hrm : forall h,
    removeSocket key (set_heap h g) = Thrown TypeError (set_heap h g)).
  { intros h. now apply (removeSocket_inherited _ _ b). }
  destruct (onOpen (opts g)), (onClose (opts g)); simpl;
    unfold bind, update_socket, modify, write__sockets, ret; simpl;
    rewrite ?set_heap_set_heap; unfold bind; rewrite Hrm; eexists; split; reflexivity.
Qed.

(** Whenever [addSocket] returns, the key holds the socket it has made,
    whatever the key held before. *)
Lemma addSocket_returned g key req response g' :
  addSocket key req g = Returned response g' ->
  response = SwitchingProtocols (length (heap g))
  /\ get_own PropertyKey_eqb (_sockets g') (property_key key)
     = Some (length (heap g))
  /\ length (heap g') = S (length (heap g)).
Proof.
  unfold addSocket, bind; rewrite Deno_upgradeWebSocket_eq; unfold gets.
  destruct (upgradable req); [|discriminate]. simpl.
  destruct (onOpen (opts g)), (onClose (opts g)), (onError (opts g)); simpl;
    unfold bind, removeSocket, bind, read__sockets, gets, update_socket,
      modify, write__sockets, ret; simpl;
    try destruct (Get Deno ObjectPrototype (_sockets g) (property_key key)); simpl;
    unfold bind, delete__sockets, modify; simpl;
    intros [= <- <-] || discriminate; simpl;
    rewrite get_own_set_own by apply PropertyKey_eqb_eq;
    rewrite ?length_alter, length_app; simpl; (split; [|split]); try reflexivity; lia.
Qed.

Lemma Get_own_socket {V} realm proto (props : list (PropertyKey * V)) k v :
  get_own PropertyKey_eqb props k = Some v -> Get realm proto props k = Own v.
Proof. intros Hown. unfold Get. now rewrite Hown. Qed.

Lemma Get_absent (props : list (PropertyKey * nat)) k :
  get_own PropertyKey_eqb props (property_key k) = None ->
  Get Deno ObjectPrototype props (property_key k) =
  if names_prototype_member k
  then match property_key k with
       | PString name => Inherited (ObjectPrototypeFunction name)
       | PSymbol _ => Undefined
       end
  else Undefined.
Proof.
  intros Habs. unfold Get, names_prototype_member, Object_prototype_get.
  rewrite Habs. destruct (property_key k) as [name|i]; [|reflexivity].
  now destruct (string_mem name Object_prototype_functions).
Qed.

(** C5: when [addSocket key req] has returned, [getSocket key] answers
    with the very socket that call made (the one its response belongs to,
    a socket that did not exist before), and [getSocket], for any key and
    any group, returns without changing anything. *)
Theorem getSocket_after_addSocket g key req response g' :
  addSocket key req g = Returned response g' ->
  response = SwitchingProtocols (length (heap g))
  /\ heap g !! length (heap g) = None
  /\ is_Some (heap g' !! length (heap g))
  /\ getSocket key g' = Returned (Some (Own (length (heap g)))) g'
  /\ forall k g0, exists found, getSocket k g0 = Returned found g0.
Proof.
  intros Hadd. destruct (addSocket_returned _ _ _ _ _ Hadd) as (Hr & Hget & Hlen).
  split; [exact Hr|]. split; [now apply lookup_ge_None|]. split.
  { apply lookup_lt_is_Some. lia. }
  split.
  - rewrite getSocket_eq. now erewrite Get_own_socket.
  - intros k g0. rewrite getSocket_eq. now eexists.
Qed.

(** C9: [addSocket] on a group made with an [onError] option closes and
    evicts the socket the key holds before it stores the new one (the key
    is deleted and created again, so it now comes last among the own
    properties), although no error event is involved; on a group without
    that option it overwrites the entry in place and leaves every
    existing socket untouched. *)
Theorem addSocket_onError_evicts g key req :
  upgradable req = true ->
  (forall f s0 sock,
      onError (opts g) = Some f ->
      get_own PropertyKey_eqb (_sockets g) (property_key key) = Some s0 ->
      heap g !! s0 = Some sock ->
      exists g',
        addSocket key req g = Returned (SwitchingProtocols (length (heap g))) g'
        /\ _sockets g' =
           delete_own PropertyKey_eqb (_sockets g) (property_key key)
             ++ [(property_key key, length (heap g))]
        /\ heap g' !! s0 = Some (closed sock)
        /\ close_calls (ws (closed sock)) = S (close_calls (ws sock)))
  /\ (onError (opts g) = None ->
      exists g',
        addSocket key req g = Returned (SwitchingProtocols (length (heap g))) g'
        /\ _sockets g' =
           set_own PropertyKey_eqb (_sockets g) (property_key key) (length (heap g))
        /\ forall id sock, heap g !! id = Some sock -> heap g' !! id = Some sock).
Proof.
  intros Hu. split.
  - intros f s0 sock He Hown Hsock.
    assert (Hlt : s0 < length (heap g)) by (eapply lookup_lt_Some; eauto).
    rewrite (addSocket_onError_own g key req f s0) by assumption.
    eexists. split; [reflexivity|]. split; [reflexivity|]. split; [|reflexivity].
    simpl. rewrite lookup_app_l by now rewrite length_alter.
    now rewrite list_lookup_alter_eq, Hsock.
  - intros He. rewrite addSocket_without_onError by assumption.
    eexists. split; [reflexivity|]. split; [reflexivity|].
    intros id sock Hid. simpl. rewrite lookup_app_l; [exact Hid|].
    eapply lookup_lt_Some; eauto.
Qed.

(** *** removeSocket, for keys that are not names on [Object.prototype] *)

(** A key that holds a socket: the socket gets one [close()] call, the
    entry is evicted, and [getSocket] then answers [null] unless the key
    names a member of [Object.prototype]. *)
Lemma removeSocket_closes_and_evicts g k id sock :
  get_own PropertyKey_eqb (_sockets g) (property_key k) = Some id ->
  heap g !! id = Some sock ->
  exists g',
    removeSocket k g = Returned tt g'
    /\ heap g' !! id = Some (closed sock)
    /\ get_own PropertyKey_eqb (_sockets g') (property_key k) = None
    /\ (names_prototype_member k = false ->
        getSocket k g' = Returned None g').
Proof.
  intros Hown Hsock. rewrite (removeSocket_own g k id Hown).
  eexists. split; [reflexivity|]. simpl. split.
  - now rewrite list_lookup_alter_eq, Hsock.
  - split; [apply get_own_delete_own|].
    intros Hproto. rewrite getSocket_eq. simpl.
    rewrite Get_absent by apply get_own_delete_own. now rewrite Hproto.
Qed.

(** A key that holds nothing and names nothing on [Object.prototype]:
    [removeSocket] changes nothing at all. *)
Lemma removeSocket_absent g k :
  get_own PropertyKey_eqb (_sockets g) (property_key k) = None ->
  names_prototype_member k = false ->
  removeSocket k g = Returned tt g.
Proof.
  intros Habs Hproto. apply removeSocket_undefined.
  rewrite Get_absent by exact Habs. now rewrite Hproto.
Qed.

(** A key that holds nothing but names a member of [Object.prototype]:
    the lookup finds that member, and [socket.close()] throws. *)
Lemma removeSocket_prototype_member g k :
  get_own PropertyKey_eqb (_sockets g) (property_key k) = None ->
  names_prototype_member k = true ->
  removeSocket k g = Thrown TypeError g.
Proof.
  intros Habs Hname. pose proof (Get_absent _ _ Habs) as Hget.
  rewrite Hname in Hget. unfold names_prototype_member in Hname.
  destruct (property_key k) as [name|i] eqn:Hk; [|discriminate].
  rewrite <- Hk in Hget. now apply (removeSocket_inherited _ _ _ Hget).
Qed.

(** Removing twice: the second call finds nothing and does not close the
    socket a second time. *)
Lemma removeSocket_twice g k id g1 :
  get_own PropertyKey_eqb (_sockets g) (property_key k) = Some id ->
  names_prototype_member k = false ->
  removeSocket k g = Returned tt g1 ->
  removeSocket k g1 = Returned tt g1.
Proof.
  intros Hown Hproto. rewrite (removeSocket_own g k id Hown).
  intros [= <-]. apply removeSocket_absent; [|exact Hproto].
  simpl. apply get_own_delete_own.
Qed.

(** The close notification of a socket that [removeSocket] has already
    evicted runs [removeSocket] again from [onclose]: it finds nothing, so
    the socket gets no second [close()] call and nothing is thrown. *)
Lemma close_event_after_removeSocket g k id sock g1 :
  get_own PropertyKey_eqb (_sockets g) (property_key k) = Some id ->
  heap g !! id = Some sock ->
  readyState (ws sock) = OPEN ->
  onclose sock = Some k ->
  names_prototype_member k = false ->
  removeSocket k g = Returned tt g1 ->
  exists g2,
    close_event id g1 = Returned tt g2
    /\ _sockets g2 = _sockets g1
    /\ (ws <$> heap g2 !! id)
       = Some {| readyState := CLOSED; sent := sent (ws sock);
                 close_calls := S (close_calls (ws sock)) |}.
Proof.
  intros Hown Hsock Hr Hl Hproto. rewrite (removeSocket_own g k id Hown).
  intros [= <-].
  unfold close_event, bind, state_of, listener_of, update_socket, modify, gets.
  simpl. rewrite !list_lookup_alter_eq, Hsock. simpl.
  rewrite !list_lookup_alter_eq, Hsock. simpl. rewrite Hl.
  unfold onclose_listener, bind.
  rewrite removeSocket_absent;
    [|simpl; apply get_own_delete_own|exact Hproto].
  unfold call_opt, gets. simpl.
  destruct (onClose (opts g)); unfold modify; simpl;
    (eexists; split; [reflexivity|]; split; [reflexivity|]); simpl;
    now rewrite !list_lookup_alter_eq, Hsock.
Qed.

(** C4, where the code departs from it: "toString" is the name of a
    member of [Object.prototype], so on a group that holds no socket at
    all [_sockets["toString"]] is a function, the guard [if (socket)]
    passes, and [socket.close()] throws a TypeError instead of the call
    being a no-op.  [getSocket] answers that key with the function. *)
Theorem removeSocket_toString_throws (o : CreateSocketOpts) :
  removeSocket (KString "toString") (createSocketGroup o)
  = Thrown TypeError (createSocketGroup o)
  /\ getSocket (KString "toString") (createSocketGroup o)
     = Returned (Some (Inherited (ObjectPrototypeFunction "toString")))
         (createSocketGroup o).
Proof. split; reflexivity. Qed.

(** *** broadcast *)

Lemma broadcast_eq message g :
  broadcast message g
  = for_of (Object_values (_sockets g)) (broadcast_step message) g.
Proof. reflexivity. Qed.

Lemma received_0 data s : received 0 data s = s.
Proof.
  destruct s as [[r sn c] ? ? ? ?]. unfold received, set_ws. simpl.
  now rewrite app_nil_r.
Qed.

Lemma received_received a b data s :
  received a data (received b data s) = received (b + a) data s.
Proof.
  unfold received, set_ws. simpl. now rewrite repeat_app, app_assoc.
Qed.

Lemma distinct_NoDup l : distinct l = true -> NoDup l.
Proof.
  induction l as [|x rest IH]; simpl; [constructor|].
  intros Hd. apply andb_true_iff in Hd as [Hx Hr]. constructor; [|now apply IH].
  intros Hin. apply negb_true_iff in Hx.
  assert (existsb (Nat.eqb x) rest = true); [|congruence].
  apply existsb_exists. exists x. split; [now apply list_elem_of_In|].
  apply Nat.eqb_refl.
Qed.

Lemma registry_ok_NoDup g : registry_ok g = true -> NoDup (map snd (_sockets g)).
Proof.
  unfold registry_ok. intros Hok. apply andb_true_iff in Hok as [Hd _].
  now apply distinct_NoDup.
Qed.

Lemma registry_ok_bound g k id :
  registry_ok g = true -> (k, id) ∈ _sockets g -> id < length (heap g).
Proof.
  unfold registry_ok. intros Hok Hin. apply andb_true_iff in Hok as [_ Hb].
  rewrite forallb_forall in Hb. apply Nat.ltb_lt, Hb.
  apply in_map_iff. exists (k, id). split; [reflexivity|].
  now apply list_elem_of_In.
Qed.

(** What one [socket.send(data)] does, by the state of the socket. *)
Lemma call_send_OPEN g id data :
  is_OPEN g id = true ->
  call_send (Own id) data g
  = Returned tt (set_heap (alter (received 1 data) id (heap g)) g).
Proof.
  unfold is_OPEN, call_send, WebSocket_send.
  destruct (heap g !! id) as [s|] eqn:Hs; [|discriminate].
  destruct (readyState (ws s)) eqn:Hr; try discriminate. intros _.
  do 2 f_equal. apply list_eq. intros j.
  rewrite list_lookup_insert, list_lookup_alter.
  destruct (decide (id = j)) as [->|Hne].
  - rewrite decide_True
      by (split; [reflexivity|eapply lookup_lt_Some; eauto]).
    rewrite Hs. simpl. unfold received. now rewrite Hr.
  - rewrite decide_False by (intros [? _]; contradiction). reflexivity.
Qed.

Lemma call_send_CONNECTING g id data s :
  heap g !! id = Some s ->
  readyState (ws s) = CONNECTING ->
  call_send (Own id) data g = Thrown InvalidStateError g.
Proof.
  intros Hs Hr. unfold call_send, WebSocket_send. now rewrite Hs, Hr.
Qed.

Lemma set_ws_id (s : Socket) : set_ws (ws s) s = s.
Proof. now destruct s. Qed.

Lemma set_heap_id (g : Group) : set_heap (heap g) g = g.
Proof. now destruct g. Qed.

Lemma call_send_by_state g id sock data :
  heap g !! id = Some sock ->
  call_send (Own id) data g =
  match readyState (ws sock) with
  | CONNECTING => Thrown InvalidStateError g
  | OPEN => Returned tt (set_heap (alter (received 1 data) id (heap g)) g)
  | CLOSING | CLOSED => Returned tt g
  end.
Proof.
  intros Hs. destruct (readyState (ws sock)) eqn:Hr.
  - now apply (call_send_CONNECTING g id data sock).
  - apply call_send_OPEN. unfold is_OPEN. now rewrite Hs, Hr.
  - unfold call_send, WebSocket_send. rewrite Hs, Hr, set_ws_id.
    now rewrite list_insert_id, set_heap_id.
  - unfold call_send, WebSocket_send. rewrite Hs, Hr, set_ws_id.
    now rewrite list_insert_id, set_heap_id.
Qed.

(** A turn that throws has changed nothing. *)
Lemma broadcast_step_Thrown message id g e g' :
  broadcast_step message id g = Thrown e g' -> g' = g.
Proof.
  unfold broadcast_step, bind, complete, call_send.
  destruct (JSON_stringify message) as [data|e']; [|now intros [= _ <-]].
  destruct (heap g !! id) as [s|]; [|now intros [= _ <-]].
  destruct (WebSocket_send data (ws s)); [discriminate|now intros [= _ <-]].
Qed.

(** A turn that returns has touched the wire of its own socket only. *)
Lemma broadcast_step_Returned message id g g' :
  broadcast_step message id g = Returned tt g' ->
  opts g' = opts g /\ _sockets g' = _sockets g /\ trace g' = trace g
  /\ forall j, j <> id -> heap g' !! j = heap g !! j.
Proof.
  unfold broadcast_step, bind, complete, call_send.
  destruct (JSON_stringify message) as [data|e']; [|discriminate].
  destruct (heap g !! id) as [s|]; [|discriminate].
  destruct (WebSocket_send data (ws s)); [|discriminate].
  intros [= <-]. simpl. repeat split.
  intros j Hne. now rewrite list_lookup_insert_ne.
Qed.

Lemma for_of_broadcast_step_frame message ids : forall g o,
  for_of ids (broadcast_step message) g = o ->
  opts (final o) = opts g /\ _sockets (final o) = _sockets g
  /\ trace (final o) = trace g
  /\ forall j, j ∉ ids -> heap (final o) !! j = heap g !! j.
Proof.
  induction ids as [|id rest IH]; intros g o; simpl.
  - intros <-. simpl. now repeat split.
  - unfold bind. destruct (broadcast_step message id g) as [[] g1|e g1] eqn:Hstep.
    + intros Ho. destruct (IH g1 o Ho) as (Ho1 & Hs1 & Ht1 & Hh1).
      destruct (broadcast_step_Returned _ _ _ _ Hstep) as (Ho2 & Hs2 & Ht2 & Hh2).
      repeat split; try congruence.
      intros j Hj. apply not_elem_of_cons in Hj as [Hne Hj].
      rewrite Hh1 by exact Hj. now apply Hh2.
    + intros <-. simpl. apply broadcast_step_Thrown in Hstep. subst g1.
      now repeat split.
Qed.

Lemma is_OPEN_alter_received g id n data j :
  is_OPEN (set_heap (alter (received n data) id (heap g)) g) j = is_OPEN g j.
Proof.
  unfold is_OPEN. simpl. rewrite list_lookup_alter.
  destruct (decide (id = j)) as [->|Hne]; [|reflexivity].
  now destruct (heap g !! j).
Qed.

(** Serving a list of open sockets: each gets as many copies of the text
    as it has places in the list. *)
Lemma for_of_broadcast_step_OPEN message data ids : forall g,
  JSON_stringify message = Normal data ->
  (forall id, id ∈ ids -> is_OPEN g id = true) ->
  exists g',
    for_of ids (broadcast_step message) g = Returned tt g'
    /\ forall id,
         heap g' !! id
         = received (count_occ Nat.eq_dec ids id) data <$> heap g !! id.
Proof.
  intros g Hdata. revert g.
  induction ids as [|x rest IH]; intros g Hopen.
  - exists g. split; [reflexivity|]. intros id. simpl.
    destruct (heap g !! id) as [s|]; simpl; [now rewrite received_0|reflexivity].
  - simpl. unfold bind at 1. unfold broadcast_step at 1, bind, complete.
    rewrite Hdata, call_send_OPEN by (apply Hopen; left).
    destruct (IH (set_heap (alter (received 1 data) x (heap g)) g))
      as (g' & Hrun & Hheap).
    { intros id Hid. rewrite is_OPEN_alter_received. apply Hopen. now right. }
    exists g'. split; [exact Hrun|]. intros id. rewrite Hheap. simpl.
    rewrite list_lookup_alter.
    destruct (Nat.eq_dec x id) as [->|Hne].
    + rewrite decide_True by reflexivity.
      destruct (heap g !! id) as [s|]; simpl; [|reflexivity].
      now rewrite received_received.
    + now rewrite decide_False.
Qed.

(** Serving a well-formed registry whose String-keyed sockets are all
    open. *)
Lemma broadcast_to_open_sockets g message data :
  registry_ok g = true ->
  JSON_stringify message = Normal data ->
  forallb (is_OPEN g) (string_keyed (_sockets g)) = true ->
  exists g',
    broadcast message g = Returned tt g'
    /\ opts g' = opts g /\ _sockets g' = _sockets g /\ trace g' = trace g
    /\ (forall id sock,
          id ∈ string_keyed (_sockets g) ->
          heap g !! id = Some sock ->
          heap g' !! id = Some (received 1 data sock))
    /\ (forall id, id ∉ string_keyed (_sockets g) -> heap g' !! id = heap g !! id).
Proof.
  intros Hok Hdata Hall.
  assert (Hopen : forall id, id ∈ string_keyed (_sockets g) -> is_OPEN g id = true).
  { intros id Hid. rewrite forallb_forall in Hall.
    now apply Hall, list_elem_of_In. }
  assert (Hperm := Object_values_Permutation (_sockets g)).
  assert (Hnd : NoDup (Object_values (_sockets g)))
    by (apply NoDup_Object_values, registry_ok_NoDup, Hok).
  destruct (for_of_broadcast_step_OPEN message data (Object_values (_sockets g)) g)
    as (g' & Hrun & Hheap); [exact Hdata| |].
  { intros id Hid. apply Hopen. now rewrite <- Hperm. }
  exists g'. rewrite broadcast_eq. split; [exact Hrun|].
  destruct (for_of_broadcast_step_frame message _ g _ Hrun) as (Ho & Hs & Ht & _).
  simpl in Ho, Hs, Ht. repeat split; try assumption.
  - intros id sock Hid Hsock. rewrite Hheap, Hsock. simpl. do 2 f_equal.
    apply NoDup_count_occ'; [now apply NoDup_ListNoDup|].
    apply list_elem_of_In. now rewrite Hperm.
  - intros id Hid. rewrite Hheap.
    rewrite (proj1 (count_occ_not_In Nat.eq_dec _ id)).
    + destruct (heap g !! id); simpl; [now rewrite received_0|reflexivity].
    + rewrite <- list_elem_of_In, Hperm. exact Hid.
Qed.

(** *** send *)

Lemma send_unregistered g key message :
  Get Deno ObjectPrototype (_sockets g) (property_key key) = Undefined ->
  Server.send key message g = Returned tt g.
Proof.
  intros Hu. unfold Server.send, bind, read__sockets, gets. now rewrite Hu.
Qed.

Lemma send_unserializable g key message e :
  JSON_stringify message = Abrupt e ->
  truthy (Get Deno ObjectPrototype (_sockets g) (property_key key)) = true ->
  Server.send key message g = Thrown e g.
Proof.
  intros He Ht. unfold Server.send, bind, read__sockets, gets, complete.
  rewrite Ht, He. reflexivity.
Qed.

Lemma send_OPEN g key message data id :
  get_own PropertyKey_eqb (_sockets g) (property_key key) = Some id ->
  JSON_stringify message = Normal data ->
  is_OPEN g id = true ->
  Server.send key message g
  = Returned tt (set_heap (alter (received 1 data) id (heap g)) g).
Proof.
  intros Hown Hdata Hopen.
  unfold Server.send, bind, read__sockets, gets, complete.
  rewrite (Get_own_socket _ _ _ _ _ Hown), Hdata. simpl.
  now apply call_send_OPEN.
Qed.

(** *** The message listener *)

Lemma onmessage_unparsable key handlers event_data g :
  JSON_parse event_data = None ->
  Server.onmessage_listener key handlers event_data g
  = Returned tt (Server.log (Server.console_error_parse event_data SyntaxError) g).
Proof. intros Hp. unfold Server.onmessage_listener. now rewrite Hp. Qed.

Lemma onmessage_falsy key handlers event_data eventData g :
  JSON_parse event_data = Some eventData ->
  Json_truthy eventData = false ->
  Server.onmessage_listener key handlers event_data g = Returned tt g.
Proof.
  intros Hp Hf. unfold Server.onmessage_listener. now rewrite Hp, Hf.
Qed.

Lemma onmessage_dispatch key handlers event_data eventData g :
  JSON_parse event_data = Some eventData ->
  Json_truthy eventData = true ->
  Server.onmessage_listener key handlers event_data g =
  match ToPropertyKey (Json_get eventData "key") with
  | Normal name =>
      match Get_handler Deno handlers name with
      | Own f =>
          Returned tt
            (Server.log (Server.call_handler f (Json_get eventData "data") key) g)
      | Inherited b =>
          match call_builtin b (Json_get eventData "data") with
          | Normal _ => Returned tt g
          | Abrupt e => Thrown e g
          end
      | Undefined => Returned tt g
      end
  | Abrupt e => Thrown e g
  end.
Proof.
  intros Hp Ht. unfold Server.onmessage_listener. rewrite Hp, Ht. simpl.
  unfold bind, complete.
  destruct (ToPropertyKey (Json_get eventData "key")) as [name|e]; [|reflexivity].
  destruct (Get_handler Deno handlers name) as [f|b|]; simpl; try reflexivity.
  now destruct (call_builtin b _) as [[]|e].
Qed.

(** A tag that the table does not hold and that names nothing on
    [Object.prototype] is ignored. *)
Lemma onmessage_unknown_tag key handlers event_data eventData name g :
  JSON_parse event_data = Some eventData ->
  Json_truthy eventData = true ->
  ToPropertyKey (Json_get eventData "key") = Normal name ->
  Get_handler Deno handlers name = Undefined ->
  Server.onmessage_listener key handlers event_data g = Returned tt g.
Proof.
  intros Hp Ht Hn Hu. rewrite (onmessage_dispatch _ _ _ eventData) by assumption.
  now rewrite Hn, Hu.
Qed.

(** A tag that is an object with a field named "toString" cannot be made
    a property key: the lookup throws, whatever the table holds. *)
Lemma onmessage_unconvertible_tag key handlers event_data eventData e g :
  JSON_parse event_data = Some eventData ->
  Json_truthy eventData = true ->
  ToPropertyKey (Json_get eventData "key") = Abrupt e ->
  Server.onmessage_listener key handlers event_data g = Thrown e g.
Proof.
  intros Hp Ht Hn. rewrite (onmessage_dispatch _ _ _ eventData) by assumption.
  now rewrite Hn.
Qed.

(** A tag that the table does not hold but that names
    [Object.prototype.valueOf]: the table being an ordinary object, the
    lookup finds that function, and calling it throws. *)
Lemma onmessage_valueOf_tag key handlers event_data eventData g :
  JSON_parse event_data = Some eventData ->
  Json_get eventData "key" = Some (JString "valueOf") ->
  handlers_proto handlers = ObjectPrototype ->
  get_own String.eqb (handlers_own handlers) "valueOf" = None ->
  Server.onmessage_listener key handlers event_data g = Thrown TypeError g.
Proof.
  intros Hp Hk Hproto Hown.
  assert (Ht : Json_truthy eventData = true).
  { destruct eventData; try discriminate. reflexivity. }
  rewrite (onmessage_dispatch _ _ _ eventData) by assumption.
  rewrite Hk. simpl. unfold Get_handler. rewrite Hown, Hproto. reflexivity.
Qed.

(** The runtime hands a frame arriving on an open socket to the listener
    [setHandlersForSocket] has installed. *)
Lemma message_event_listener g id sock key handlers event_data :
  heap g !! id = Some sock ->
  readyState (ws sock) = OPEN ->
  onmessage sock = Some (key, handlers) ->
  Server.message_event id event_data g
  = Server.onmessage_listener key handlers event_data g.
Proof.
  intros Hs Hr Hl. unfold Server.message_event, bind, state_of, listener_of, gets.
  rewrite Hs. simpl. rewrite Hr. simpl. rewrite Hs. simpl. now rewrite Hl.
Qed.

(** [setHandlersForSocket] installs the listener on the socket the key
    holds. *)
Lemma setHandlersForSocket_own g key handlers id :
  get_own PropertyKey_eqb (_sockets g) (property_key key) = Some id ->
  Server.setHandlersForSocket key handlers g
  = Returned tt (set_heap (alter (set_onmessage (key, handlers)) id (heap g)) g).
Proof.
  intros Hown. unfold Server.setHandlersForSocket, bind, read__sockets, gets.
  now rewrite (Get_own_socket _ _ _ _ _ Hown).
Qed.
End GroupFacts.

(** ** The client socket *)

Section ConnectionFacts.
Context `{Codec}.
Import Client.

(** The catch block of [send]: the template literal of its log line
    converts the message first, and that conversion can throw in turn. *)
Lemma client_send_unserializable message e c :
  JSON_stringify message = Abrupt e ->
  Client.send message c
  = match Message_ToString message with
    | Normal _ =>
        Returned tt (Client.log (Client.console_error_serialize message e) c)
    | Abrupt e' => Thrown e' c
    end.
Proof.
  intros He. unfold Client.send, bind, try_catch, complete. rewrite He.
  now destruct (Message_ToString message).
Qed.

Lemma client_send_serializable message data c :
  JSON_stringify message = Normal data ->
  Client.send message c = socket_send data c.
Proof.
  intros Hd. unfold Client.send, bind, try_catch, complete. now rewrite Hd.
Qed.

Lemma client_onmessage_unparsable event_data c :
  JSON_parse event_data = None ->
  Client.onmessage_listener event_data c
  = Returned tt (Client.log (Client.console_error_parse event_data SyntaxError) c).
Proof. intros Hp. unfold Client.onmessage_listener. now rewrite Hp. Qed.

Lemma client_onmessage_dispatch event_data eventData handlers c :
  JSON_parse event_data = Some eventData ->
  Json_truthy eventData = true ->
  _handlers c = Some handlers ->
  Client.onmessage_listener event_data c =
  match ToPropertyKey (Json_get eventData "key") with
  | Normal name =>
      match Get_handler (realm c) handlers name with
      | Own f =>
          Returned tt (Client.log (Client.call_handler f (Json_get eventData "data")) c)
      | Inherited b =>
          match call_builtin b (Json_get eventData "data") with
          | Normal _ => Returned tt c
          | Abrupt e => Thrown e c
          end
      | Undefined => Returned tt c
      end
  | Abrupt e => Thrown e c
  end.
Proof.
  intros Hp Ht Hh. unfold Client.onmessage_listener. rewrite Hp, Ht. simpl.
  unfold bind, gets. rewrite Hh. unfold complete.
  destruct (ToPropertyKey (Json_get eventData "key")) as [name|e]; [|reflexivity].
  destruct (Get_handler (realm c) handlers name) as [f|b|]; simpl; try reflexivity.
  now destruct (call_builtin b _) as [[]|e].
Qed.

(** C10: while [setHandlersForSocket] has never been called, [_handlers]
    is undefined, and every message that parses to a truthy value makes
    the listener throw a TypeError at [_handlers[key]]; nothing else
    happens.  Once [setHandlersForSocket] has been called, the same
    message, when its tag spells a name, is ignored if the table has
    nothing for that name and is handed to the handler the table holds
    under it otherwise. *)
Theorem message_before_setHandlersForSocket c event_data eventData :
  _handlers c = None ->
  JSON_parse event_data = Some eventData ->
  Json_truthy eventData = true ->
  Client.onmessage_listener event_data c = Thrown TypeError c
  /\ forall handlers name,
       ToPropertyKey (Json_get eventData "key") = Normal name ->
       exists c',
         Client.setHandlersForSocket handlers c = Returned tt c'
         /\ (Get_handler (realm c) handlers name = Undefined ->
             Client.onmessage_listener event_data c' = Returned tt c')
         /\ (forall f,
               get_own String.eqb (handlers_own handlers) name = Some f ->
               Client.onmessage_listener event_data c'
               = Returned tt
                   (Client.log (Client.call_handler f (Json_get eventData "data")) c')).
Proof.
  intros Hh Hp Ht. split.
  - unfold Client.onmessage_listener. rewrite Hp, Ht. simpl.
    unfold bind, gets. now rewrite Hh.
  - intros handlers name Hname. eexists. split; [reflexivity|].
    split.
    + intros Hu.
      rewrite (client_onmessage_dispatch _ eventData handlers) by easy.
      rewrite Hname. simpl. now rewrite Hu.
    + intros f Hf.
      rewrite (client_onmessage_dispatch _ eventData handlers) by easy.
      rewrite Hname. unfold Get_handler. now rewrite Hf.
Qed.

Lemma connect_handlers_unset r o : _handlers (connect r o) = None.
Proof. reflexivity. Qed.
End ConnectionFacts.

(** ** Both sides *)

Section BothSides.
Context `{Codec}.

(** C6, as the code has it: decoding is [JSON.parse] and nothing more.
    When [JSON.parse] rejects the text, the listener (the group's and the
    client's alike) writes one line to [console.error] and returns: no
    handler is called, no socket is closed or otherwise changed, the
    registry and the handler table stay as they are, and nothing is
    thrown. *)
Theorem unparsable_text_is_logged_and_dropped event_data :
  JSON_parse event_data = None ->
  (forall key handlers g,
     exists g',
       Server.onmessage_listener key handlers event_data g = Returned tt g'
       /\ Server.trace g' = Server.trace g ++ [Server.console_error_parse event_data SyntaxError]
       /\ Server.heap g' = Server.heap g
       /\ Server._sockets g' = Server._sockets g)
  /\ (forall c,
        exists c',
          Client.onmessage_listener event_data c = Returned tt c'
          /\ Client.trace c' = Client.trace c ++ [Client.console_error_parse event_data SyntaxError]
          /\ Client._socket c' = Client._socket c
          /\ Client._handlers c' = Client._handlers c).
Proof.
  intros Hp. split.
  - intros key handlers g. rewrite onmessage_unparsable by exact Hp.
    eexists. now repeat split.
  - intros c. rewrite client_onmessage_unparsable by exact Hp.
    eexists. now repeat split.
Qed.

(** C7, as the code has it: when [JSON.stringify] throws on the message,
    nothing is written to the socket and the socket stays as it is, on
    both sides; but only the group's [send] lets that exception reach its
    caller, and only for a key that holds something.  The client's [send]
    catches it and builds a line for [console.error] from the message:
    when the message can be converted to a string, the line is written
    and [send] returns normally; when that conversion throws in turn,
    [send] throws this second exception and nothing is logged.  The
    group's [send] for a key that holds nothing returns before
    serialising. *)
Theorem unserializable_message_is_not_sent message e :
  JSON_stringify message = Abrupt e ->
  (forall c, Client._socket (final (Client.send message c)) = Client._socket c)
  /\ (forall c text,
        Message_ToString message = Normal text ->
        exists c',
          Client.send message c = Returned tt c'
          /\ Client.trace c'
             = Client.trace c ++ [Client.console_error_serialize message e]
          /\ Client._socket c' = Client._socket c)
  /\ (forall c e',
        Message_ToString message = Abrupt e' ->
        Client.send message c = Thrown e' c)
  /\ (forall g key,
        truthy (Get Deno ObjectPrototype (Server._sockets g) (Server.property_key key))
        = true ->
        Server.send key message g = Thrown e g)
  /\ (forall g key,
        truthy (Get Deno ObjectPrototype (Server._sockets g) (Server.property_key key))
        = false ->
        Server.send key message g = Returned tt g).
Proof.
  intros He. split; [|split; [|split; [|split]]].
  - intros c. rewrite (client_send_unserializable _ e) by exact He.
    now destruct (Message_ToString message).
  - intros c text Htext. rewrite (client_send_unserializable _ e) by exact He.
    rewrite Htext. eexists. now repeat apply conj.
  - intros c e' Htext. rewrite (client_send_unserializable _ e) by exact He.
    now rewrite Htext.
  - intros g key Ht. now apply send_unserializable.
  - intros g key Hf. apply send_unregistered.
    now destruct (Get Deno ObjectPrototype _ _).
Qed.
End BothSides.

(** ** The registry stays well formed *)

Section RegistryInvariant.
Context `{Codec}.
Import Server.

Lemma registers_nothing_refl g : registers_nothing g g.
Proof. split; reflexivity. Qed.

Lemma registers_nothing_trans g1 g2 g3 :
  registers_nothing g1 g2 -> registers_nothing g2 g3 -> registers_nothing g1 g3.
Proof.
  intros [Hl1 Hs1] [Hl2 Hs2]. split; [congruence|]. now transitivity (_sockets g2).
Qed.

Lemma delete_own_sublist {K V} (eqb : K -> K -> bool) (props : list (K * V)) k :
  delete_own eqb props k `sublist_of` props.
Proof.
  induction props as [|[k' v'] rest IH]; simpl; [constructor|].
  destruct (eqb k' k); now constructor.
Qed.

Lemma keeps_ret {A} (a : A) : keeps_registry (ret a).
Proof. intros g. apply registers_nothing_refl. Qed.

Lemma keeps_throw {A} e : keeps_registry (throw e : Js Group A).
Proof. intros g. apply registers_nothing_refl. Qed.

Lemma keeps_gets {A} (f : Group -> A) : keeps_registry (gets f).
Proof. intros g. apply registers_nothing_refl. Qed.

Lemma keeps_complete {A} (c : Completion A) : keeps_registry (complete c).
Proof. intros g. destruct c; apply registers_nothing_refl. Qed.

Lemma keeps_modify (f : Group -> Group) :
  (forall g, registers_nothing g (f g)) -> keeps_registry (modify f).
Proof. intros Hf g. apply Hf. Qed.

Lemma keeps_bind {A B} (m : Js Group A) (k : A -> Js Group B) :
  keeps_registry m -> (forall a, keeps_registry (k a)) -> keeps_registry (bind m k).
Proof.
  intros Hm Hk g. unfold bind. specialize (Hm g).
  destruct (m g) as [a g1|e g1]; simpl in *; [|exact Hm].
  eapply registers_nothing_trans; [exact Hm|apply Hk].
Qed.

Lemma keeps_for_of {A} (xs : list A) (body : A -> Js Group unit) :
  (forall x, keeps_registry (body x)) -> keeps_registry (for_of xs body).
Proof.
  intros Hbody. induction xs as [|x rest IH]; simpl.
  - apply keeps_ret.
  - apply keeps_bind; [apply Hbody|intros _; exact IH].
Qed.

Lemma keeps_update_socket id f : keeps_registry (update_socket id f).
Proof.
  apply keeps_modify. intros g. split; simpl; [apply length_alter|reflexivity].
Qed.

Lemma keeps_log e : keeps_registry (modify (log e)).
Proof. apply keeps_modify. intros g. split; reflexivity. Qed.

Lemma keeps_delete__sockets k : keeps_registry (delete__sockets k).
Proof.
  apply keeps_modify. intros g. split; simpl; [reflexivity|apply delete_own_sublist].
Qed.

Lemma keeps_call_close socket : keeps_registry (call_close socket).
Proof.
  destruct socket; simpl; [apply keeps_update_socket|apply keeps_throw..].
Qed.

Lemma keeps_call_send socket data : keeps_registry (call_send socket data).
Proof.
  destruct socket as [id|b|]; simpl; [|apply keeps_throw..].
  intros g. destruct (heap g !! id) as [s|]; [|apply registers_nothing_refl].
  destruct (WebSocket_send data (ws s)); simpl; [|apply registers_nothing_refl].
  split; simpl; [apply length_insert|reflexivity].
Qed.

Lemma keeps_call_opt f key : keeps_registry (call_opt f key).
Proof. destruct f; simpl; [apply keeps_log|apply keeps_ret]. Qed.

Local Ltac keeps :=
  repeat first
    [ apply keeps_ret | apply keeps_throw | apply keeps_gets | apply keeps_complete
    | apply keeps_log | apply keeps_update_socket | apply keeps_delete__sockets
    | apply keeps_call_close | apply keeps_call_send | apply keeps_call_opt
    | apply keeps_for_of; intros
    | apply keeps_bind; [|intros] ].

Lemma keeps_removeSocket k : keeps_registry (removeSocket k).
Proof.
  unfold removeSocket, read__sockets. keeps.
  destruct (truthy _); keeps.
Qed.

Local Ltac keeps ::=
  repeat first
    [ apply keeps_removeSocket
    | apply keeps_ret | apply keeps_throw | apply keeps_gets | apply keeps_complete
    | apply keeps_log | apply keeps_update_socket | apply keeps_delete__sockets
    | apply keeps_call_close | apply keeps_call_send | apply keeps_call_opt
    | apply keeps_for_of; intros
    | apply keeps_bind; [|intros] ].

Lemma keeps_getSocket k : keeps_registry (getSocket k).
Proof.
  unfold getSocket, read__sockets. keeps. destruct (negb _); keeps.
Qed.

Lemma keeps_setHandlersForSocket key handlers :
  keeps_registry (setHandlersForSocket key handlers).
Proof.
  unfold setHandlersForSocket, read__sockets.
  apply keeps_bind; [apply keeps_gets|intros socket].
  destruct (negb _); [apply keeps_ret|]. destruct socket; keeps.
Qed.

Lemma keeps_send key message : keeps_registry (Server.send key message).
Proof.
  unfold Server.send, read__sockets. keeps. destruct (negb _); keeps.
Qed.

Lemma keeps_broadcast message : keeps_registry (broadcast message).
Proof. unfold broadcast. keeps. Qed.

Lemma keeps_onmessage_listener key handlers event_data :
  keeps_registry (Server.onmessage_listener key handlers event_data).
Proof.
  unfold Server.onmessage_listener.
  destruct (JSON_parse event_data) as [eventData|]; keeps.
  destruct (negb (Json_truthy eventData)); keeps.
  destruct (Get_handler _ _ _); simpl; keeps.
Qed.

Lemma keeps_open_event id : keeps_registry (Server.open_event id).
Proof.
  unfold Server.open_event, state_of, listener_of, onopen_listener.
  apply keeps_bind; [apply keeps_gets|intros state].
  destruct state as [[]|]; try apply keeps_ret;
    (apply keeps_bind; [apply keeps_update_socket|intros _];
     apply keeps_bind; [apply keeps_gets|intros l]; destruct l; keeps).
Qed.

Lemma keeps_close_event id : keeps_registry (Server.close_event id).
Proof.
  unfold Server.close_event, state_of, listener_of, onclose_listener.
  apply keeps_bind; [apply keeps_gets|intros state].
  destruct state as [[]|]; try apply keeps_ret;
    (apply keeps_bind; [apply keeps_update_socket|intros _];
     apply keeps_bind; [apply keeps_gets|intros l]; destruct l; keeps).
Qed.

Lemma keeps_error_event id : keeps_registry (Server.error_event id).
Proof.
  unfold Server.error_event, state_of, listener_of, onerror_listener.
  apply keeps_bind; [apply keeps_gets|intros state].
  destruct state as [[]|]; try apply keeps_ret;
    (apply keeps_bind; [apply keeps_update_socket|intros _];
     apply keeps_bind; [apply keeps_gets|intros l]; destruct l; keeps).
Qed.

Lemma keeps_message_event id event_data :
  keeps_registry (Server.message_event id event_data).
Proof.
  unfold Server.message_event, state_of, listener_of.
  apply keeps_bind; [apply keeps_gets|intros state].
  destruct state as [[]|]; try apply keeps_ret.
  apply keeps_bind; [apply keeps_gets|intros l].
  destruct l as [[key handlers]|]; [apply keeps_onmessage_listener|apply keeps_ret].
Qed.

(** Well-formedness, as propositions. *)
Lemma registry_ok_iff g :
  registry_ok g = true
  <-> NoDup (map snd (_sockets g))
      /\ forall id, id ∈ map snd (_sockets g) -> id < length (heap g).
Proof.
  unfold registry_ok. rewrite andb_true_iff, forallb_forall. split.
  - intros [Hd Hb]. split; [now apply distinct_NoDup|].
    intros id Hid. apply Nat.ltb_lt, Hb. now apply list_elem_of_In.
  - intros [Hnd Hb]. split.
    + clear Hb. induction (map snd (_sockets g)) as [|x rest IH]; [reflexivity|].
      apply NoDup_cons in Hnd as [Hx Hnd]. simpl. rewrite IH by exact Hnd.
      rewrite andb_true_r. apply negb_true_iff.
      destruct (existsb (Nat.eqb x) rest) eqn:E; [|reflexivity].
      apply existsb_exists in E as (y & Hy & Hxy). apply Nat.eqb_eq in Hxy.
      subst y. apply list_elem_of_In in Hy. contradiction.
    + intros id Hid. apply Nat.ltb_lt, Hb. now apply list_elem_of_In.
Qed.

Lemma registry_ok_registers_nothing g g' :
  registers_nothing g g' -> registry_ok g = true -> registry_ok g' = true.
Proof.
  intros [Hlen Hsub]. rewrite !registry_ok_iff. intros [Hnd Hb].
  assert (Hvals : map snd (_sockets g') `sublist_of` map snd (_sockets g))
    by now apply fmap_sublist.
  split; [eapply sublist_NoDup; eassumption|].
  intros id Hid. rewrite Hlen. apply Hb. eapply elem_of_sublist; eassumption.
Qed.

Lemma registry_ok_createSocketGroup o : registry_ok (createSocketGroup o) = true.
Proof. reflexivity. Qed.

(** Storing a socket that is new keeps the registry well formed. *)
Lemma registry_ok_store (props : list (PropertyKey * nat)) k n :
  NoDup (map snd props) ->
  (forall id, id ∈ map snd props -> id < n) ->
  NoDup (map snd (set_own PropertyKey_eqb props k n))
  /\ forall id, id ∈ map snd (set_own PropertyKey_eqb props k n) -> id < S n.
Proof.
  induction props as [|[k' v'] rest IH]; simpl; intros Hnd Hb.
  - split; [apply NoDup_singleton|].
    intros id Hid. apply list_elem_of_singleton in Hid. lia.
  - apply NoDup_cons in Hnd as [Hv Hnd].
    assert (Hrest : forall id, id ∈ map snd rest -> id < n)
      by (intros id Hid; apply Hb; now right).
    destruct (PropertyKey_eqb k' k); simpl.
    + split.
      * apply NoDup_cons. split; [|exact Hnd].
        intros Hn. apply Hrest in Hn. lia.
      * intros id Hid. apply elem_of_cons in Hid as [->|Hid]; [lia|].
        apply Hrest in Hid. lia.
    + destruct (IH Hnd Hrest) as [Hnd' Hb']. split.
      * apply NoDup_cons. split; [|exact Hnd'].
        intros Hin. apply list_elem_of_fmap in Hin as ([k0 v0] & -> & Hin).
        apply elem_of_set_own in Hin as [[= _ ->]|Hin];
          [|apply Hv, list_elem_of_fmap; now exists (k0, v0)|apply PropertyKey_eqb_eq].
        assert (n < n); [|lia]. apply Hb. left.
      * intros id Hid. apply elem_of_cons in Hid as [->|Hid]; [|now apply Hb'].
        assert (v' < n); [|lia]. apply Hb. left.
Qed.

Lemma registry_ok_addSocket g key req :
  registry_ok g = true -> registry_ok (final (addSocket key req g)) = true.
Proof.
  intros Hok. destruct (upgradable req) eqn:Hu;
    [|now rewrite addSocket_not_upgradable].
  pose proof Hok as Hok'. apply registry_ok_iff in Hok' as [Hnd Hb].
  assert (Hstore : forall props,
    props `sublist_of` _sockets g ->
    forall h, length h = S (length (heap g)) ->
    registry_ok (set__sockets
                   (set_own PropertyKey_eqb props (property_key key) (length (heap g)))
                   (set_heap h g)) = true).
  { intros props Hsub h Hlen. apply registry_ok_iff. simpl. rewrite Hlen.
    assert (Hvals : map snd props `sublist_of` map snd (_sockets g))
      by now apply fmap_sublist.
    apply registry_ok_store; [eapply sublist_NoDup; eassumption|].
    intros id Hid. apply Hb. eapply elem_of_sublist; eassumption. }
  assert (Hgrow : forall h, length (heap g) <= length h ->
                            registry_ok (set_heap h g) = true).
  { intros h Hlen. apply registry_ok_iff. simpl. split; [exact Hnd|].
    intros id Hid. specialize (Hb id Hid). lia. }
  destruct (onError (opts g)) as [f|] eqn:He.
  - destruct (Get Deno ObjectPrototype (_sockets g) (property_key key))
      as [s0|b|] eqn:Hget.
    + assert (Hown : get_own PropertyKey_eqb (_sockets g) (property_key key) = Some s0).
      { unfold Get in Hget.
        destruct (get_own PropertyKey_eqb (_sockets g) (property_key key)) as [v|];
          [congruence|].
        destruct (property_key key) as [name|]; [|discriminate].
        destruct (Object_prototype_get Deno name); discriminate. }
      assert (Hlt : s0 < length (heap g)).
      { apply Hb, list_elem_of_fmap. exists (property_key key, s0).
        split; [reflexivity|].
        eapply get_own_elem_of; [apply PropertyKey_eqb_eq|exact Hown]. }
      rewrite (addSocket_onError_own g key req f s0) by assumption. simpl.
      rewrite <- set_own_delete_own. apply Hstore; [apply delete_own_sublist|].
      rewrite length_app, length_alter. simpl. lia.
    + destruct (addSocket_onError_inherited g key req f b Hu He Hget)
        as (g' & Hadd & Hs).
      pose proof (f_equal final Hadd) as Hfinal. simpl in Hfinal.
      rewrite Hfinal. clear Hfinal.
      revert Hadd Hs. unfold addSocket, bind; rewrite Deno_upgradeWebSocket_eq; unfold gets.
      rewrite Hu. simpl. rewrite He. simpl.
      destruct (onOpen (opts g)), (onClose (opts g)); simpl;
        unfold bind, update_socket, modify, ret; simpl;
        rewrite ?set_heap_set_heap; unfold bind;
        rewrite (removeSocket_inherited _ _ b) by exact Hget;
        intros [= <-] _; apply Hgrow;
        rewrite ?length_alter, length_app; lia.
    + rewrite (addSocket_onError_undefined g key req f) by assumption. simpl.
      unfold Get in Hget.
      destruct (get_own PropertyKey_eqb (_sockets g) (property_key key)) as [v|] eqn:Hown;
        [discriminate|].
      rewrite <- (set_own_absent PropertyKey_eqb _ _ _ Hown).
      apply Hstore; [reflexivity|]. rewrite length_app. simpl. lia.
  - rewrite addSocket_without_onError by assumption. simpl.
    apply Hstore; [reflexivity|]. rewrite length_app. simpl. lia.
Qed.

Lemma registry_ok_perform a g :
  registry_ok g = true -> registry_ok (perform a g) = true.
Proof.
  destruct a; simpl;
    first [ apply registry_ok_addSocket
          | apply registry_ok_registers_nothing ].
  - apply keeps_getSocket.
  - apply keeps_removeSocket.
  - apply keeps_setHandlersForSocket.
  - apply keeps_send.
  - apply keeps_broadcast.
  - apply keeps_open_event.
  - apply keeps_close_event.
  - apply keeps_error_event.
  - apply keeps_message_event.
Qed.

(** Whatever the host application and the runtime do to a group, starting
    from [createSocketGroup], its registry refers to existing sockets and
    to each of them once. *)
Lemma registry_ok_run o actions :
  registry_ok (run actions (createSocketGroup o)) = true.
Proof.
  unfold run.
  assert (Hgen : forall g, registry_ok g = true ->
            registry_ok (fold_left (fun g a => perform a g) actions g) = true).
  { induction actions as [|a rest IH]; intros g Hg; simpl; [exact Hg|].
    apply IH, registry_ok_perform, Hg. }
  apply Hgen, registry_ok_createSocketGroup.
Qed.

(** *** Registering under a key that is taken *)

(** The socket a key held is not in the registry once the key has been
    given another one. *)
Lemma not_elem_of_set_own (props : list (PropertyKey * nat)) k v k' old :
  NoDup (map snd props) ->
  get_own PropertyKey_eqb props k = Some old ->
  old <> v ->
  (k', old) ∉ set_own PropertyKey_eqb props k v.
Proof.
  induction props as [|[k0 v0] rest IH]; simpl; [discriminate|].
  intros Hnd Hget Hne. apply NoDup_cons in Hnd as [Hv0 Hnd].
  destruct (PropertyKey_eqb k0 k) eqn:E.
  - injection Hget as ->. intros Hin.
    apply elem_of_cons in Hin as [[= _ ->]|Hin]; [now apply Hne|].
    apply Hv0. apply list_elem_of_fmap. now exists (k', old).
  - intros Hin. apply elem_of_cons in Hin as [[= _ <-]|Hin].
    + apply Hv0. apply list_elem_of_fmap. exists (k, old). split; [reflexivity|].
      eapply get_own_elem_of; [apply PropertyKey_eqb_eq|exact Hget].
    + now apply (IH Hnd Hget Hne).
Qed.

Lemma not_elem_of_delete_own (props : list (PropertyKey * nat)) k k' old :
  NoDup (map snd props) ->
  get_own PropertyKey_eqb props k = Some old ->
  (k', old) ∉ delete_own PropertyKey_eqb props k.
Proof.
  induction props as [|[k0 v0] rest IH]; simpl; [discriminate|].
  intros Hnd Hget. apply NoDup_cons in Hnd as [Hv0 Hnd].
  destruct (PropertyKey_eqb k0 k) eqn:E.
  - injection Hget as ->. intros Hin. apply elem_of_delete_own in Hin.
    apply Hv0. apply list_elem_of_fmap. now exists (k', old).
  - intros Hin. apply elem_of_cons in Hin as [[= _ <-]|Hin].
    + apply Hv0. apply list_elem_of_fmap. exists (k, old). split; [reflexivity|].
      eapply get_own_elem_of; [apply PropertyKey_eqb_eq|exact Hget].
    + now apply (IH Hnd Hget).
Qed.

(** C1, as the code has it: in any group the code can produce,
    registering under a key that already holds a socket never fails.
    [addSocket] returns the upgrade response, the key then answers with
    the new socket, and the socket it held is dropped from the registry,
    so that no key leads to it any more: it is left exactly as it was
    (still open if it was open) when the group has no [onError] option,
    and has got one [close()] call when it has one. *)
Theorem addSocket_on_occupied_key o actions key req s0 :
  let g := run actions (createSocketGroup o) in
  get_own PropertyKey_eqb (_sockets g) (property_key key) = Some s0 ->
  upgradable req = true ->
  exists sock g',
    heap g !! s0 = Some sock
    /\ addSocket key req g = Returned (SwitchingProtocols (length (heap g))) g'
    /\ getSocket key g' = Returned (Some (Own (length (heap g)))) g'
    /\ s0 <> length (heap g)
    /\ (forall k, (k, s0) ∉ _sockets g')
    /\ heap g' !! s0 =
       Some (if provided (onError (opts g)) then closed sock else sock).
Proof.
  intros g Hown Hu.
  pose proof (registry_ok_run o actions) as Hok. fold g in Hok.
  pose proof (registry_ok_NoDup g Hok) as Hnd.
  assert (Hlt : s0 < length (heap g)).
  { eapply registry_ok_bound; [exact Hok|].
    eapply get_own_elem_of; [apply PropertyKey_eqb_eq|exact Hown]. }
  destruct (lookup_lt_is_Some_2 _ _ Hlt) as [sock Hsock].
  exists sock.
  destruct (onError (opts g)) as [f|] eqn:He; simpl.
  - rewrite (addSocket_onError_own g key req f s0) by assumption.
    eexists. split; [exact Hsock|]. split; [reflexivity|]. split; [|split; [lia|split]].
    + rewrite getSocket_eq. simpl.
      rewrite <- (set_own_delete_own PropertyKey_eqb).
      erewrite Get_own_socket; [reflexivity|].
      apply get_own_set_own, PropertyKey_eqb_eq.
    + intros k Hin. simpl in Hin. apply elem_of_app in Hin as [Hin|Hin].
      * now apply (not_elem_of_delete_own _ _ k s0 Hnd Hown).
      * apply list_elem_of_singleton in Hin. injection Hin as _ ->. lia.
    + simpl. rewrite lookup_app_l by now rewrite length_alter.
      now rewrite list_lookup_alter_eq, Hsock.
  - rewrite addSocket_without_onError by assumption.
    eexists. split; [exact Hsock|]. split; [reflexivity|]. split; [|split; [lia|split]].
    + rewrite getSocket_eq. simpl.
      erewrite Get_own_socket; [reflexivity|].
      apply get_own_set_own, PropertyKey_eqb_eq.
    + intros k. simpl. apply (not_elem_of_set_own _ _ _ k s0 Hnd Hown). lia.
    + simpl. now rewrite lookup_app_l.
Qed.

(** *** Serving the recipients *)

(** One turn of the loop that returns has served its socket. *)
Lemma broadcast_step_served message id g g' sock :
  broadcast_step message id g = Returned tt g' ->
  heap g !! id = Some sock ->
  exists data,
    JSON_stringify message = Normal data
    /\ heap g' !! id = Some (served data sock).
Proof.
  unfold broadcast_step, bind, complete.
  destruct (JSON_stringify message) as [data|e]; [|discriminate].
  intros Hstep Hsock. exists data. split; [reflexivity|].
  rewrite (call_send_by_state g id sock data Hsock) in Hstep. unfold served.
  destruct (readyState (ws sock)); try discriminate;
    injection Hstep as <-; simpl; rewrite ?list_lookup_alter_eq, ?Hsock;
    reflexivity.
Qed.

(** Turns that return have served each socket of the list, once. *)
Lemma for_of_broadcast_step_served message ids : forall g g',
  NoDup ids ->
  for_of ids (broadcast_step message) g = Returned tt g' ->
  forall id sock,
    id ∈ ids ->
    heap g !! id = Some sock ->
    exists data,
      JSON_stringify message = Normal data
      /\ heap g' !! id = Some (served data sock).
Proof.
  induction ids as [|x rest IH]; intros g g' Hnd Hrun id sock Hid Hsock.
  - inversion Hid.
  - apply NoDup_cons in Hnd as [Hx Hnd]. simpl in Hrun. unfold bind in Hrun.
    destruct (broadcast_step message x g) as [[] g1|e g1] eqn:Hstep;
      [|discriminate].
    destruct (for_of_broadcast_step_frame message rest g1 _ Hrun)
      as (_ & _ & _ & Hrest).
    destruct (decide (id = x)) as [->|Hne].
    + destruct (broadcast_step_served _ _ _ _ _ Hstep Hsock) as (data & Hdata & Hx1).
      exists data. split; [exact Hdata|]. simpl in Hrest.
      now rewrite (Hrest x Hx).
    + apply elem_of_cons in Hid as [Heq|Hid]; [contradiction|].
      destruct (broadcast_step_Returned _ _ _ _ Hstep) as (_ & _ & _ & Hother).
      apply (IH g1 g' Hnd Hrun id sock Hid). now rewrite Hother.
Qed.



(** C2, as the code has it: the loop of [broadcast] has no [try].  In any
    group the code can produce, when the send to one recipient throws,
    [broadcast] throws that exception to its caller there and then.  Each
    recipient enumerated before it has been served once (the text of the
    message is on its wire if it is OPEN), the failing turn has changed
    nothing, and no socket outside the part already served (so none of
    the remaining recipients) has been touched. *)
Theorem broadcast_stops_at_first_failure
    o actions message before socket after g1 e g2 :
  let g := run actions (createSocketGroup o) in
  Object_values (_sockets g) = before ++ socket :: after ->
  for_of before (broadcast_step message) g = Returned tt g1 ->
  broadcast_step message socket g1 = Thrown e g2 ->
  broadcast message g = Thrown e g1
  /\ g2 = g1
  /\ (forall id sock,
        id ∈ before ->
        heap g !! id = Some sock ->
        exists data,
          JSON_stringify message = Normal data
          /\ heap g1 !! id = Some (served data sock))
  /\ (forall id, id ∈ before -> is_Some (heap g !! id))
  /\ forall id, id ∉ before -> heap g1 !! id = heap g !! id.
Proof.
  intros g Hvalues Hbefore Hthrow.
  pose proof (registry_ok_run o actions) as Hok. fold g in Hok.
  pose proof (broadcast_step_Thrown _ _ _ _ _ Hthrow) as ->.
  assert (Hnd : NoDup before).
  { pose proof (NoDup_Object_values _ (registry_ok_NoDup g Hok)) as Hvs.
    rewrite Hvalues in Hvs. now apply NoDup_app in Hvs as [Hvs _]. }
  split; [|split; [reflexivity|split; [|split]]].
  - rewrite broadcast_eq, Hvalues. eapply for_of_aborts; eauto.
  - intros id sock Hid Hsock.
    now apply (for_of_broadcast_step_served message before g g1 Hnd Hbefore).
  - intros id Hid. apply lookup_lt_is_Some.
    assert (Hin : id ∈ Object_values (_sockets g))
      by (rewrite Hvalues; apply elem_of_app; now left).
    rewrite Object_values_Permutation in Hin.
    apply elem_of_string_keyed in Hin as [name Hname].
    eapply registry_ok_bound; eauto.
  - intros id Hid.
    destruct (for_of_broadcast_step_frame message before g _ Hbefore)
      as (_ & _ & _ & Hheap).
    now apply Hheap.
Qed.

End RegistryInvariant.

(** ** Worked scenarios *)

Section Scenarios.
Import Examples Server.

(** *** Registering twice under one key *)

(** C1 does not hold of the code: "a" holds socket 0, which is open, and
    a second [addSocket] under "a" is not rejected.  It returns the
    response of a new socket 1, "a" now answers with socket 1, and socket
    0 is still open but no key leads to it any more. *)
Lemma second_addSocket_is_not_rejected :
  getSocket (KString "a") (group_a no_opts)
  = Returned (Some (Own 0)) (group_a no_opts)
  /\ is_OPEN (group_a no_opts) 0 = true
  /\ exists g',
       addSocket (KString "a") upgrade (group_a no_opts)
       = Returned (SwitchingProtocols 1) g'
       /\ getSocket (KString "a") g' = Returned (Some (Own 1)) g'
       /\ is_OPEN g' 0 = true
       /\ _sockets g' = [(PString "a", 1)].
Proof.
  split; [reflexivity|]. split; [reflexivity|].
  eexists. split; [reflexivity|]. repeat split.
Qed.

Lemma addSocket_on_occupied_key_witness :
  get_own PropertyKey_eqb (_sockets (group_a with_onError))
    (property_key (KString "a")) = Some 0
  /\ upgradable upgrade = true
  /\ exists g',
       addSocket (KString "a") upgrade (group_a with_onError)
       = Returned (SwitchingProtocols 1) g'
       /\ getSocket (KString "a") g' = Returned (Some (Own 1)) g'
       /\ (forall k, (k, 0) ∉ _sockets g')
       /\ (ws <$> heap g' !! 0)
          = Some {| readyState := CLOSING; sent := []; close_calls := 1 |}.
Proof.
  split; [reflexivity|]. split; [reflexivity|].
  destruct (addSocket_on_occupied_key with_onError
              [do_addSocket (KString "a") upgrade; on_open 0] (KString "a")
              upgrade 0 eq_refl eq_refl)
    as (sock & g' & Hsock & Hadd & Hget & _ & Hgone & Hold).
  exists g'. split; [exact Hadd|]. split; [exact Hget|]. split; [exact Hgone|].
  rewrite Hold. injection Hsock as <-. reflexivity.
Defined.

(** What the socket left behind can still do: its [onclose] listener
    holds the key, so when it closes, [removeSocket] closes and evicts the
    socket that replaced it. *)
Example close_of_replaced_socket_evicts_its_successor :
  getSocket (KString "a") group_a_replaced
  = Returned (Some (Own 1)) group_a_replaced
  /\ exists g',
       close_event 0 group_a_replaced = Returned tt g'
       /\ _sockets g' = []
       /\ (ws <$> heap g' !! 1)
          = Some {| readyState := CLOSING; sent := []; close_calls := 1 |}.
Proof. split; [reflexivity|]. eexists. split; [reflexivity|]. split; reflexivity. Qed.

(** *** Broadcasting *)

(** C2 does not hold of the code: "a" and "c" are open, "b" is still in
    its handshake, so the send to "b" throws.  [broadcast] throws with
    it: "a" has got the message, "c", which is open and comes after "b",
    has got nothing. *)
Lemma broadcast_gives_up_at_first_failure :
  forallb (is_OPEN group_abc_b_connecting) [0; 2] = true
  /\ exists g',
       broadcast ping group_abc_b_connecting = Thrown InvalidStateError g'
       /\ (sent ∘ ws <$> heap g' !! 0) = Some [ping_text]
       /\ (sent ∘ ws <$> heap g' !! 2) = Some []
       /\ is_OPEN g' 2 = true.
Proof. split; [reflexivity|]. eexists. split; [reflexivity|]. repeat split. Qed.

Lemma broadcast_stops_at_first_failure_witness :
  Object_values (_sockets group_abc_b_connecting) = [0] ++ 1 :: [2]
  /\ exists g1,
       for_of [0] (broadcast_step ping) group_abc_b_connecting = Returned tt g1
       /\ broadcast_step ping 1 g1 = Thrown InvalidStateError g1
       /\ broadcast ping group_abc_b_connecting = Thrown InvalidStateError g1
       /\ (forall id sock,
             id ∈ [0] ->
             heap group_abc_b_connecting !! id = Some sock ->
             exists data,
               JSON_stringify ping = Normal data
               /\ heap g1 !! id = Some (served data sock))
       /\ forall id, id ∉ [0] -> heap g1 !! id = heap group_abc_b_connecting !! id.
Proof.
  split; [reflexivity|].
  eexists. split; [reflexivity|]. split; [reflexivity|].
  destruct (broadcast_stops_at_first_failure no_opts
              (register_abc ++ [on_open 0; on_open 2]) ping
              [0] 1 [2] _ InvalidStateError _ eq_refl eq_refl eq_refl)
    as (Hthrow & _ & Hserved & _ & Hrest).
  split; [exact Hthrow|]. split; [exact Hserved|exact Hrest].
Defined.


(** The scenario of C3 once the three handshakes are done: each socket
    has exactly one ping on its wire. *)
Example broadcast_ping_to_abc :
  exists g',
    broadcast ping group_abc_open = Returned tt g'
    /\ (sent ∘ ws <$> heap g') = [[ping_text]; [ping_text]; [ping_text]].
Proof. eexists. split; reflexivity. Qed.

(** The same when the connection of "b" has ended and "b" is still
    registered: "a" and "c" get their ping, "b" is passed over. *)
Example broadcast_ping_past_a_closed_socket :
  (readyState ∘ ws <$> heap group_abc_b_closed) = [OPEN; CLOSED; OPEN]
  /\ exists g',
       broadcast ping group_abc_b_closed = Returned tt g'
       /\ (sent ∘ ws <$> heap g') = [[ping_text]; []; [ping_text]].
Proof. split; [reflexivity|]. eexists. split; reflexivity. Qed.


(** A message [JSON.stringify] rejects reaches nobody either. *)
Example broadcast_of_a_BigInt :
  broadcast tally group_abc_open = Thrown TypeError group_abc_open.
Proof. reflexivity. Qed.

(** A socket registered under a Symbol is not enumerated by
    [Object.values]: [broadcast] returns and has sent it nothing, though
    [getSocket] finds it and it is open. *)
Example broadcast_skips_symbol_keys :
  getSocket (KSymbol 0) group_with_symbol
  = Returned (Some (Own 1)) group_with_symbol
  /\ is_OPEN group_with_symbol 1 = true
  /\ exists g',
       broadcast ping group_with_symbol = Returned tt g'
       /\ (sent ∘ ws <$> heap g') = [[ping_text]; []].
Proof.
  split; [reflexivity|]. split; [reflexivity|]. eexists. split; reflexivity.
Qed.

(** Number keys are String keys, and the array indices among them are
    served first, in ascending order, whatever the order of creation. *)
Example Object_values_order :
  Object_values [(PString "b", 0); (PString "10", 1); (PSymbol 3, 2);
                 (PString "2", 3); (PString "01", 4)]
  = [3; 1; 0; 4].
Proof. reflexivity. Qed.

(** *** Removing *)

(** For an ordinary key C4 is what the code does: the socket is closed
    by one [close()] call, the entry goes, [getSocket] answers [null],
    and a second [removeSocket] changes nothing. *)
Example removeSocket_a :
  exists g',
    removeSocket (KString "a") (group_a no_opts) = Returned tt g'
    /\ (ws <$> heap g' !! 0)
       = Some {| readyState := CLOSING; sent := []; close_calls := 1 |}
    /\ getSocket (KString "a") g' = Returned None g'
    /\ removeSocket (KString "a") g' = Returned tt g'.
Proof. eexists. split; [reflexivity|]. repeat split. Qed.

(** *** Looking up *)

Lemma getSocket_after_addSocket_witness :
  addSocket (KString "a") upgrade (createSocketGroup no_opts)
  = Returned (SwitchingProtocols 0)
      (run [do_addSocket (KString "a") upgrade] (createSocketGroup no_opts))
  /\ getSocket (KString "a")
       (run [do_addSocket (KString "a") upgrade] (createSocketGroup no_opts))
     = Returned (Some (Own 0))
         (run [do_addSocket (KString "a") upgrade] (createSocketGroup no_opts)).
Proof.
  split; [reflexivity|].
  apply (getSocket_after_addSocket (createSocketGroup no_opts) (KString "a")
           upgrade (SwitchingProtocols 0) _ eq_refl).
Defined.

(** *** The option [onError] *)

Lemma addSocket_onError_evicts_witness :
  upgradable upgrade = true
  /\ onError (opts (group_abc_onError)) = Some (Fn 0)
  /\ get_own PropertyKey_eqb (_sockets group_abc_onError)
       (property_key (KString "a")) = Some 0
  /\ exists g',
       addSocket (KString "a") upgrade group_abc_onError
       = Returned (SwitchingProtocols 3) g'
       /\ _sockets g' = [(PString "b", 1); (PString "c", 2); (PString "a", 3)]
       /\ (ws <$> heap g' !! 0)
          = Some {| readyState := CLOSING; sent := []; close_calls := 1 |}.
Proof.
  split; [reflexivity|]. split; [reflexivity|]. split; [reflexivity|].
  destruct (addSocket_onError_evicts group_abc_onError (KString "a") upgrade
              eq_refl) as [Hevict _].
  destruct (Hevict (Fn 0) 0 _ eq_refl eq_refl eq_refl)
    as (g' & Hadd & Hs & Hold & _).
  exists g'. split; [exact Hadd|]. split; [exact Hs|].
  rewrite Hold. reflexivity.
Defined.

(** Without the option the same call overwrites "a" where it stands and
    closes nothing. *)
Example addSocket_without_onError_overwrites :
  exists g',
    addSocket (KString "a") upgrade group_abc_open
    = Returned (SwitchingProtocols 3) g'
    /\ _sockets g' = [(PString "a", 3); (PString "b", 1); (PString "c", 2)]
    /\ (ws <$> heap g' !! 0)
       = Some {| readyState := OPEN; sent := []; close_calls := 0 |}.
Proof. eexists. split; [reflexivity|]. split; reflexivity. Qed.

(** *** Inbound messages *)

(** C6 does not hold of the code for a payload that is JSON but no
    envelope: [{"data":1}] has no tag, yet it parses, so nothing is
    written to [console.error]; the listener looks up the tag
    "undefined", finds no handler and returns. *)
Lemma untagged_payload_is_not_logged :
  JSON_parse untagged_text = Some (JObject [("data", JNumber one)])
  /\ message_event 0 untagged_text group_a_listening
     = Returned tt group_a_listening
  /\ trace group_a_listening = [].
Proof. repeat split. Qed.

Lemma unparsable_text_is_logged_and_dropped_witness :
  JSON_parse garbage = None
  /\ exists g',
       onmessage_listener (KString "a") ping_handlers garbage group_a_listening
       = Returned tt g'
       /\ trace g' = trace group_a_listening ++ [console_error_parse garbage SyntaxError]
       /\ heap g' = heap group_a_listening
       /\ _sockets g' = _sockets group_a_listening.
Proof.
  split; [reflexivity|].
  assert (Hgarbage : JSON_parse garbage = None) by reflexivity.
  destruct (unparsable_text_is_logged_and_dropped garbage Hgarbage) as [Hserver _].
  apply Hserver.
Defined.

(** A well-formed envelope whose tag is bound reaches its handler. *)
Example ping_is_dispatched :
  message_event 0 ping_text group_a_listening
  = Returned tt
      (log (call_handler (Fn 7) (Some JNull) (KString "a")) group_a_listening).
Proof. reflexivity. Qed.

(** The scenario of C8 with a tag that names nothing anywhere: no
    handler is called, nothing is thrown, nothing changes. *)
Example unknown_tag_is_ignored :
  message_event 0 (envelope_text "unknown_tag" "{}") group_a_listening
  = Returned tt group_a_listening
  /\ Client.message_event (envelope_text "unknown_tag" "{}") client_listening
     = Returned tt client_listening.
Proof. split; reflexivity. Qed.

(** A tag need not spell a name: in [{"key":{"toString":0},"data":null}]
    it is an object whose own "toString" is no function, and using it as
    a property key throws a TypeError out of the listener, on the server
    and on the client. *)
Example unconvertible_tag_throws :
  message_event 0 unconvertible_text group_a_listening
  = Thrown TypeError group_a_listening
  /\ Client.message_event unconvertible_text client_listening
     = Thrown TypeError client_listening.
Proof. split; reflexivity. Qed.

(** C8, where the code departs from it: the handler table is an object
    literal holding "ping" only, and the envelope [{"key":"valueOf",
    "data":null}] is well formed.  [handlers["valueOf"]] finds
    [Object.prototype.valueOf], the guard [if (!handler) return] lets it
    through, and calling it throws a TypeError out of the listener, on
    the server and on the client. *)
Theorem valueOf_tag_throws :
  get_own String.eqb (handlers_own ping_handlers) "valueOf" = None
  /\ message_event 0 (envelope_text "valueOf" "null") group_a_listening
     = Thrown TypeError group_a_listening
  /\ Client.message_event (envelope_text "valueOf" "null") client_listening
     = Thrown TypeError client_listening.
Proof. repeat split. Qed.

Lemma message_before_setHandlersForSocket_witness :
  Client._handlers client_open = None
  /\ JSON_parse ping_text = Some (JObject [("key", JString "ping"); ("data", JNull)])
  /\ Client.onmessage_listener ping_text client_open = Thrown TypeError client_open
  /\ Client.onmessage_listener ping_text client_listening
     = Returned tt (Client.log (Client.call_handler (Fn 7) (Some JNull)) client_listening).
Proof.
  split; [reflexivity|]. split; [reflexivity|].
  assert (Hparse : JSON_parse ping_text
                   = Some (JObject [("key", JString "ping"); ("data", JNull)]))
    by reflexivity.
  destruct (message_before_setHandlersForSocket client_open ping_text _
              eq_refl Hparse eq_refl) as [Hbefore Hafter].
  split; [exact Hbefore|].
  destruct (Hafter ping_handlers "ping" eq_refl) as (c' & Hset & _ & Hcall).
  injection Hset as <-. exact (Hcall (Fn 7) eq_refl).
Defined.

(** *** Outbound messages *)

(** C7 does not hold of the client: [send] of a message that cannot be
    serialised does not fail at the call site.  It returns normally; the
    caller can only learn of the failure from [console.error]. *)
Lemma client_send_swallows_the_error :
  JSON_stringify tally = Abrupt TypeError
  /\ Client.send tally client_open
     = Returned tt (Client.log (Client.console_error_serialize tally TypeError)
                      client_open).
Proof. split; reflexivity. Qed.

(** A message that can be neither serialised nor converted by the
    template literal of the log line: the client's [send] throws out of
    its catch block and nothing is logged. *)
Example client_send_of_a_bare_object :
  JSON_stringify bare = Abrupt TypeError
  /\ Message_ToString bare = Abrupt TypeError
  /\ Client.send bare client_open = Thrown TypeError client_open.
Proof. repeat split. Qed.

Lemma unserializable_message_is_not_sent_witness :
  JSON_stringify tally = Abrupt TypeError
  /\ Message_ToString tally = Normal "[object Object]"
  /\ (exists c',
        Client.send tally client_open = Returned tt c'
        /\ Client.trace c'
           = Client.trace client_open
               ++ [Client.console_error_serialize tally TypeError]
        /\ Client._socket c' = Client._socket client_open)
  /\ Server.send (KString "a") tally (group_a no_opts)
     = Thrown TypeError (group_a no_opts)
  /\ Server.send (KString "z") tally (group_a no_opts)
     = Returned tt (group_a no_opts).
Proof.
  split; [reflexivity|]. split; [reflexivity|].
  assert (Hthrows : JSON_stringify tally = Abrupt TypeError) by reflexivity.
  assert (Htext : Message_ToString tally = Normal "[object Object]") by reflexivity.
  destruct (unserializable_message_is_not_sent tally TypeError Hthrows)
    as (_ & Hclient & _ & Hheld & Hfree).
  split; [exact (Hclient client_open _ Htext)|].
  split; [now apply Hheld|now apply Hfree].
Defined.
End Scenarios.

(** * Further properties *)

(** ** The registry as a map from keys to sockets *)

Section RegistryFacts.
Context `{Codec}.
Import Server.

Lemma Get_Own_inv {V} realm proto (props : list (PropertyKey * V)) k v :
  Get realm proto props k = Own v -> get_own PropertyKey_eqb props k = Some v.
Proof.
  unfold Get. destruct (get_own PropertyKey_eqb props k) as [w|]; [congruence|].
  destruct proto, k as [name|i]; try discriminate.
  destruct (Object_prototype_get realm name); discriminate.
Qed.

Lemma lookup_snoc {A} (l : list A) (x : A) n :
  n = length l -> (l ++ [x]) !! n = Some x.
Proof. intros ->. now apply list_lookup_middle. Qed.

(** What [addSocket] leaves in [_sockets], however it ends. *)
Lemma addSocket_final__sockets g key req :
  let stored := _sockets (final (addSocket key req g)) in
  stored = _sockets g
  \/ stored = set_own PropertyKey_eqb (_sockets g) (property_key key) (length (heap g))
  \/ stored = set_own PropertyKey_eqb
                (delete_own PropertyKey_eqb (_sockets g) (property_key key))
                (property_key key) (length (heap g)).
Proof.
  unfold addSocket, bind; rewrite Deno_upgradeWebSocket_eq; unfold gets.
  destruct (upgradable req); [|now left]. simpl.
  destruct (onOpen (opts g)), (onClose (opts g)), (onError (opts g)); simpl;
    unfold bind, removeSocket, bind, read__sockets, gets, update_socket,
      modify, write__sockets, ret; simpl;
    try destruct (Get Deno ObjectPrototype (_sockets g) (property_key key)); simpl;
    unfold bind, delete__sockets, modify; simpl; auto.
Qed.

(** What a socket that [addSocket] has registered looks like. *)
Lemma addSocket_fresh g key req response g' :
  registry_ok g = true ->
  addSocket key req g = Returned response g' ->
  heap g' !! length (heap g) = Some (fresh_socket (opts g) key)
  /\ opts g' = opts g /\ trace g' = trace g
  /\ length (heap g') = S (length (heap g))
  /\ forall id sock, heap g !! id = Some sock ->
       heap g' !! id = Some sock \/ heap g' !! id = Some (closed sock).
Proof.
  intros Hok. destruct (upgradable req) eqn:Hu;
    [|now rewrite addSocket_not_upgradable].
  destruct (onError (opts g)) as [f|] eqn:He.
  - destruct (Get Deno ObjectPrototype (_sockets g) (property_key key))
      as [s0|b|] eqn:Hget.
    + pose proof (Get_Own_inv _ _ _ _ _ Hget) as Hown.
      assert (Hlt : s0 < length (heap g)).
      { eapply registry_ok_bound; [exact Hok|].
        eapply get_own_elem_of; [apply PropertyKey_eqb_eq|exact Hown]. }
      rewrite (addSocket_onError_own g key req f s0) by assumption.
      intros [= <- <-]. simpl. split; [apply lookup_snoc; now rewrite length_alter|].
      repeat split; [rewrite length_app, length_alter; simpl; lia|].
      intros id sock Hid.
      rewrite lookup_app_l
        by (rewrite length_alter; eapply lookup_lt_Some; eauto).
      rewrite list_lookup_alter. destruct (decide (s0 = id)) as [->|Hne].
      * right. now rewrite Hid.
      * now left.
    + destruct (addSocket_onError_inherited g key req f b Hu He Hget)
        as (g0 & Hadd & _).
      rewrite Hadd. discriminate.
    + rewrite (addSocket_onError_undefined g key req f) by assumption.
      intros [= <- <-]. simpl. split; [now apply lookup_snoc|].
      repeat split; [rewrite length_app; simpl; lia|].
      intros id sock Hid. left. now apply lookup_app_l_Some.
  - rewrite addSocket_without_onError by assumption.
    intros [= <- <-]. simpl. split; [now apply lookup_snoc|].
    repeat split; [rewrite length_app; simpl; lia|].
    intros id sock Hid. left. now apply lookup_app_l_Some.
Qed.

Lemma get_own_None_keys (props : list (PropertyKey * nat)) k :
  get_own PropertyKey_eqb props k = None -> k ∉ map fst props.
Proof.
  induction props as [|[k' v'] rest IH]; simpl; [intros _ Hin; inversion Hin|].
  destruct (PropertyKey_eqb k' k) eqn:E; [discriminate|]. intros Hn Hin.
  apply elem_of_cons in Hin as [->|Hin]; [|now apply IH].
  rewrite PropertyKey_eqb_refl in E. discriminate.
Qed.

Lemma keys_set_own (props : list (PropertyKey * nat)) k v :
  map fst (set_own PropertyKey_eqb props k v)
  = match get_own PropertyKey_eqb props k with
    | Some _ => map fst props
    | None => map fst props ++ [k]
    end.
Proof.
  induction props as [|[k' v'] rest IH]; simpl; [reflexivity|].
  destruct (PropertyKey_eqb k' k) eqn:E; simpl; [reflexivity|].
  rewrite IH. now destruct (get_own PropertyKey_eqb rest k).
Qed.

Lemma NoDup_keys_set_own (props : list (PropertyKey * nat)) k v :
  NoDup (map fst props) -> NoDup (map fst (set_own PropertyKey_eqb props k v)).
Proof.
  intros Hnd. rewrite keys_set_own.
  destruct (get_own PropertyKey_eqb props k) eqn:Hg; [exact Hnd|].
  apply NoDup_app. split; [exact Hnd|]. split; [|apply NoDup_singleton].
  intros x Hx Hk. apply list_elem_of_singleton in Hk. subst x.
  now apply get_own_None_keys in Hg.
Qed.

Lemma NoDup_keys_perform a g :
  NoDup (map fst (_sockets g)) -> NoDup (map fst (_sockets (perform a g))).
Proof.
  intros Hnd.
  assert (Hsub : forall g', registers_nothing g g' -> NoDup (map fst (_sockets g'))).
  { intros g' [_ Hs]. eapply sublist_NoDup; [exact Hnd|]. now apply fmap_sublist. }
  destruct a; simpl.
  - destruct (addSocket_final__sockets g key req) as [->|[->| ->]].
    + exact Hnd.
    + now apply NoDup_keys_set_own.
    + apply NoDup_keys_set_own. eapply sublist_NoDup; [exact Hnd|].
      apply fmap_sublist, delete_own_sublist.
  - apply Hsub, keeps_getSocket.
  - apply Hsub, keeps_removeSocket.
  - apply Hsub, keeps_setHandlersForSocket.
  - apply Hsub, keeps_send.
  - apply Hsub, keeps_broadcast.
  - apply Hsub, keeps_open_event.
  - apply Hsub, keeps_close_event.
  - apply Hsub, keeps_error_event.
  - apply Hsub, keeps_message_event.
Qed.

(** X1: whatever sequence of method calls and runtime events a group has
    gone through since [createSocketGroup], its registry is a one-to-one
    map onto live objects: no key occurs twice, no socket is held under
    two keys, every entry refers to a socket that exists, and a lookup of
    the entry's key finds the entry. *)
Theorem registry_is_one_to_one o actions :
  let g := run actions (createSocketGroup o) in
  NoDup (map fst (_sockets g))
  /\ NoDup (map snd (_sockets g))
  /\ forall k id, (k, id) ∈ _sockets g ->
       is_Some (heap g !! id)
       /\ get_own PropertyKey_eqb (_sockets g) k = Some id.
Proof.
  intros g.
  assert (Hkeys : NoDup (map fst (_sockets g))).
  { subst g. unfold run.
    assert (Hgen : forall g0, NoDup (map fst (_sockets g0)) ->
      NoDup (map fst (_sockets (fold_left (fun g a => perform a g) actions g0)))).
    { induction actions as [|a rest IH]; intros g0 Hg0; simpl; [exact Hg0|].
      apply IH, NoDup_keys_perform, Hg0. }
    apply Hgen. simpl. constructor. }
  pose proof (registry_ok_run o actions) as Hok. fold g in Hok.
  split; [exact Hkeys|]. split; [now apply registry_ok_NoDup|].
  intros k id Hin. split.
  - apply lookup_lt_is_Some. eapply registry_ok_bound; eauto.
  - clear Hok. induction (_sockets g) as [|[k' v'] rest IH]; [inversion Hin|].
    simpl in *. apply NoDup_cons in Hkeys as [Hk' Hrest].
    apply elem_of_cons in Hin as [[= -> ->]|Hin].
    + now rewrite PropertyKey_eqb_refl.
    + destruct (PropertyKey_eqb k' k) eqn:E; [|now apply IH].
      apply PropertyKey_eqb_eq in E. subst k'. exfalso. apply Hk'.
      apply list_elem_of_fmap. now exists (k, id).
Qed.

(** X2: removing a key that holds a socket (and names no member of
    [Object.prototype]) calls [close()] on that socket and on no other,
    leaves the trace alone, and empties the key: [getSocket] then answers
    [null], and removing the key once more changes nothing. *)
Theorem removeSocket_then_getSocket g k id sock :
  get_own PropertyKey_eqb (_sockets g) (property_key k) = Some id ->
  heap g !! id = Some sock ->
  names_prototype_member k = false ->
  exists g',
    removeSocket k g = Returned tt g'
    /\ getSocket k g' = Returned None g'
    /\ heap g' !! id = Some (closed sock)
    /\ (forall j, j <> id -> heap g' !! j = heap g !! j)
    /\ trace g' = trace g
    /\ removeSocket k g' = Returned tt g'.
Proof.
  intros Hown Hsock Hname.
  destruct (removeSocket_closes_and_evicts g k id sock Hown Hsock)
    as (g' & Hrm & Hclosed & Habs & Hget).
  exists g'. split; [exact Hrm|]. split; [now apply Hget|].
  split; [exact Hclosed|].
  rewrite (removeSocket_own g k id Hown) in Hrm. injection Hrm as <-.
  split; [|split; [reflexivity|]].
  - intros j Hj. simpl. now rewrite list_lookup_alter_ne.
  - apply removeSocket_absent; [|exact Hname]. simpl. apply get_own_delete_own.
Qed.

Lemma Get_other_key (props props' : list (PropertyKey * nat)) k :
  get_own PropertyKey_eqb props' k = get_own PropertyKey_eqb props k ->
  Get Deno ObjectPrototype props' k = Get Deno ObjectPrototype props k.
Proof. intros Hg. unfold Get. now rewrite Hg. Qed.

(** X3: [addSocket] and [removeSocket] under one key never change what
    another key answers: for every key whose property key differs,
    [getSocket] finds after the call, however the call ended, what it
    found before. *)
Theorem other_keys_are_unaffected g key other req found :
  property_key other <> property_key key ->
  getSocket other g = Returned found g ->
  getSocket other (final (addSocket key req g))
  = Returned found (final (addSocket key req g))
  /\ getSocket other (final (removeSocket key g))
     = Returned found (final (removeSocket key g)).
Proof.
  intros Hne. rewrite !getSocket_eq. intros [= <-].
  assert (Hne' : property_key key <> property_key other) by congruence.
  assert (Hadd :
    Get Deno ObjectPrototype (_sockets (final (addSocket key req g)))
      (property_key other)
    = Get Deno ObjectPrototype (_sockets g) (property_key other)).
  { apply Get_other_key.
    destruct (addSocket_final__sockets g key req) as [->|[->| ->]].
    - reflexivity.
    - now apply get_own_set_own_other; [apply PropertyKey_eqb_eq|].
    - rewrite get_own_set_own_other by (apply PropertyKey_eqb_eq || exact Hne').
      now apply get_own_delete_own_other; [apply PropertyKey_eqb_eq|]. }
  assert (Hrm :
    Get Deno ObjectPrototype (_sockets (final (removeSocket key g)))
      (property_key other)
    = Get Deno ObjectPrototype (_sockets g) (property_key other)).
  { apply Get_other_key. unfold removeSocket, bind, read__sockets, gets.
    destruct (Get Deno ObjectPrototype (_sockets g) (property_key key)); simpl;
      try reflexivity.
    now apply get_own_delete_own_other; [apply PropertyKey_eqb_eq|]. }
  now rewrite Hadd, Hrm.
Qed.

End RegistryFacts.

(** ** Sending *)

Section SendingFacts.
Context `{Codec}.
Import Server.

(** X6: what [send(key, message)] does for a key that holds a socket is
    decided by the state of that socket alone: it throws InvalidStateError
    and changes nothing while the socket is CONNECTING, puts the text of
    the message on the wire of that socket (and touches nothing else) when
    it is OPEN, and returns having done nothing at all when the socket is
    closing or closed. *)
Theorem send_by_readyState g key message data id sock :
  get_own PropertyKey_eqb (_sockets g) (property_key key) = Some id ->
  heap g !! id = Some sock ->
  JSON_stringify message = Normal data ->
  Server.send key message g =
  match readyState (ws sock) with
  | CONNECTING => Thrown InvalidStateError g
  | OPEN => Returned tt (set_heap (alter (received 1 data) id (heap g)) g)
  | CLOSING | CLOSED => Returned tt g
  end.
Proof.
  intros Hown Hsock Hdata.
  unfold Server.send, bind, read__sockets, gets, complete.
  rewrite (Get_own_socket _ _ _ _ _ Hown), Hdata. simpl.
  now apply call_send_by_state.
Qed.

(** X7: a group that holds no socket under a String key (an empty group,
    or one with Symbol keys only) never serialises: [broadcast] returns
    and changes nothing, even for a message [JSON.stringify] would
    reject. *)
Theorem broadcast_to_nobody g message :
  string_keyed (_sockets g) = [] ->
  broadcast message g = Returned tt g.
Proof.
  intros Hnone. rewrite broadcast_eq.
  pose proof (Object_values_Permutation (_sockets g)) as Hperm.
  rewrite Hnone in Hperm. apply Permutation_nil_r in Hperm. now rewrite Hperm.
Qed.

(** X8: as soon as the group holds one socket under a String key, a
    message that [JSON.stringify] rejects makes [broadcast] throw that
    exception before anything is sent: the group is exactly as it was. *)
Theorem broadcast_of_unserializable g message e :
  string_keyed (_sockets g) <> [] ->
  JSON_stringify message = Abrupt e ->
  broadcast message g = Thrown e g.
Proof.
  intros Hsome He. rewrite broadcast_eq.
  pose proof (Object_values_Permutation (_sockets g)) as Hperm.
  destruct (Object_values (_sockets g)) as [|x rest].
  - symmetry in Hperm. apply Permutation_nil_r in Hperm. contradiction.
  - simpl. unfold bind, broadcast_step, bind, complete. now rewrite He.
Qed.

(** One turn only ever appends to the wire of its socket. *)
Lemma broadcast_step_appends message x g o :
  broadcast_step message x g = o ->
  forall id sock, heap g !! id = Some sock ->
    exists frames,
      heap (final o) !! id
      = Some (set_ws {| readyState := readyState (ws sock);
                        sent := sent (ws sock) ++ frames;
                        close_calls := close_calls (ws sock) |} sock).
Proof.
  intros <- id sock Hid.
  assert (Hsame : heap g !! id
    = Some (set_ws {| readyState := readyState (ws sock);
                      sent := sent (ws sock) ++ [];
                      close_calls := close_calls (ws sock) |} sock)).
  { rewrite Hid. f_equal. destruct sock as [[r sn c] ? ? ? ?]. unfold set_ws.
    simpl. now rewrite app_nil_r. }
  unfold broadcast_step, bind, complete.
  destruct (JSON_stringify message) as [data|e]; [|now exists []].
  destruct (heap g !! x) as [sx|] eqn:Hx; unfold call_send; rewrite Hx;
    [|now exists []].
  unfold WebSocket_send. destruct (readyState (ws sx)) eqn:Hr; simpl;
    try (now exists []).
  - destruct (decide (x = id)) as [->|Hne].
    + exists [data]. rewrite list_lookup_insert_eq by (eapply lookup_lt_Some; eauto).
      rewrite Hid in Hx. injection Hx as ->. now rewrite Hr.
    + exists []. now rewrite list_lookup_insert_ne.
  - exists []. rewrite set_ws_id, list_insert_id by exact Hx. exact Hsame.
  - exists []. rewrite set_ws_id, list_insert_id by exact Hx. exact Hsame.
Qed.

Lemma for_of_broadcast_step_appends message ids : forall g id sock,
  heap g !! id = Some sock ->
  exists frames,
    heap (final (for_of ids (broadcast_step message) g)) !! id
    = Some (set_ws {| readyState := readyState (ws sock);
                      sent := sent (ws sock) ++ frames;
                      close_calls := close_calls (ws sock) |} sock).
Proof.
  induction ids as [|x rest IH]; intros g id sock Hid.
  - exists []. simpl. rewrite Hid. f_equal.
    destruct sock as [[r sn c] ? ? ? ?]. unfold set_ws. simpl. now rewrite app_nil_r.
  - simpl. unfold bind.
    destruct (broadcast_step_appends message x g _ eq_refl id sock Hid)
      as (frames & Hstep).
    destruct (broadcast_step message x g) as [[] g1|e g1]; simpl in *.
    + destruct (IH g1 id _ Hstep) as (more & Hrest).
      exists (frames ++ more). rewrite Hrest. unfold set_ws. simpl.
      now rewrite app_assoc.
    + now exists frames.
Qed.

(** X9: [broadcast], however it ends, only ever adds frames to wires: the
    registry, the options and the trace are as they were, no socket is
    created, and every socket keeps its state, its listeners, its count
    of [close()] calls and the frames it had already sent. *)
Theorem broadcast_only_appends g message :
  let g' := final (broadcast message g) in
  _sockets g' = _sockets g /\ opts g' = opts g /\ trace g' = trace g
  /\ length (heap g') = length (heap g)
  /\ forall id sock, heap g !! id = Some sock ->
       exists frames,
         heap g' !! id
         = Some (set_ws {| readyState := readyState (ws sock);
                           sent := sent (ws sock) ++ frames;
                           close_calls := close_calls (ws sock) |} sock).
Proof.
  intros g'. subst g'. rewrite broadcast_eq.
  destruct (for_of_broadcast_step_frame message (Object_values (_sockets g)) g _ eq_refl)
    as (Ho & Hs & Ht & _).
  destruct (keeps_broadcast message g) as [Hlen _]. rewrite broadcast_eq in Hlen.
  repeat split; try assumption.
  intros id sock Hid. now apply for_of_broadcast_step_appends.
Qed.

(** X10: a socket that is held under Symbol keys only is never served by
    [broadcast]: whatever the message and however the call ends, the
    socket is exactly as it was. *)
Theorem broadcast_never_serves_symbol_keys g message id :
  (forall name, (PString name, id) ∉ _sockets g) ->
  heap (final (broadcast message g)) !! id = heap g !! id.
Proof.
  intros Hsym. rewrite broadcast_eq.
  destruct (for_of_broadcast_step_frame message (Object_values (_sockets g)) g _ eq_refl)
    as (_ & _ & _ & Hheap).
  apply Hheap. rewrite Object_values_Permutation, elem_of_string_keyed.
  intros [name Hin]. now apply (Hsym name).
Qed.

Lemma for_of_meets_CONNECTING message data n ids : forall g,
  JSON_stringify message = Normal data ->
  (forall id, id ∈ ids -> is_Some (heap g !! id)) ->
  n ∈ ids ->
  (readyState ∘ ws <$> heap g !! n) = Some CONNECTING ->
  exists g', for_of ids (broadcast_step message) g = Thrown InvalidStateError g'.
Proof.
  intros g Hdata. revert g.
  induction ids as [|x rest IH]; intros g Hvalid Hn Hconn; [inversion Hn|].
  simpl. unfold bind at 1. unfold broadcast_step at 1, bind, complete.
  rewrite Hdata.
  destruct (Hvalid x) as [sx Hx]; [left|].
  rewrite (call_send_by_state g x sx data Hx).
  assert (Hrest : x <> n -> n ∈ rest).
  { intros Hne. apply elem_of_cons in Hn as [->|Hn]; [contradiction|exact Hn]. }
  destruct (readyState (ws sx)) eqn:Hr.
  - now exists g.
  - assert (Hne : x <> n).
    { intros ->. rewrite Hx in Hconn. simpl in Hconn. congruence. }
    apply IH.
    + intros id Hid. simpl. apply lookup_lt_is_Some. rewrite length_alter.
      apply lookup_lt_is_Some, Hvalid. now right.
    + now apply Hrest.
    + simpl. now rewrite list_lookup_alter_ne.
  - assert (Hne : x <> n).
    { intros ->. rewrite Hx in Hconn. simpl in Hconn. congruence. }
    apply IH; [intros id Hid; apply Hvalid; now right|now apply Hrest|exact Hconn].
  - assert (Hne : x <> n).
    { intros ->. rewrite Hx in Hconn. simpl in Hconn. congruence. }
    apply IH; [intros id Hid; apply Hvalid; now right|now apply Hrest|exact Hconn].
Qed.

(** X11: in any group the code can reach, the socket that [addSocket] has
    just registered cannot be written to until the runtime has opened it:
    [send] to its key throws InvalidStateError and changes nothing, and,
    when the key is a string or a number, [broadcast] throws
    InvalidStateError as well. *)
Theorem send_right_after_addSocket_throws o actions key req response g' message data :
  let g := run actions (createSocketGroup o) in
  addSocket key req g = Returned response g' ->
  JSON_stringify message = Normal data ->
  Server.send key message g' = Thrown InvalidStateError g'
  /\ ((exists name, property_key key = PString name) ->
      exists g'', broadcast message g' = Thrown InvalidStateError g'').
Proof.
  intros g Hadd Hdata.
  pose proof (registry_ok_run o actions) as Hok. fold g in Hok.
  destruct (addSocket_fresh g key req response g' Hok Hadd) as (Hnew & _).
  destruct (addSocket_returned _ _ _ _ _ Hadd) as (_ & Hget & _).
  split.
  - unfold Server.send, bind, read__sockets, gets, complete.
    rewrite (Get_own_socket _ _ _ _ _ Hget), Hdata.
    change (call_send (Own (length (heap g))) data g' = Thrown InvalidStateError g').
    now rewrite (call_send_by_state g' _ _ data Hnew).
  - intros [name Hname]. rewrite broadcast_eq.
    assert (Hok' : registry_ok g' = true).
    { pose proof (registry_ok_addSocket g key req Hok) as Hfinal.
      now rewrite Hadd in Hfinal. }
    apply (for_of_meets_CONNECTING message data (length (heap g))).
    + exact Hdata.
    + intros id Hid. rewrite Object_values_Permutation in Hid.
      apply elem_of_string_keyed in Hid as [s Hs].
      apply lookup_lt_is_Some. eapply registry_ok_bound; eauto.
    + rewrite Object_values_Permutation. apply elem_of_string_keyed.
      exists name. rewrite <- Hname.
      eapply get_own_elem_of; [apply PropertyKey_eqb_eq|exact Hget].
    + now rewrite Hnew.
Qed.
End SendingFacts.

(** ** Handlers and listeners of the group *)

Section ListenerFacts.
Context `{Codec}.
Import Server.

(** X12: binding and dispatching fit together.  Once
    [setHandlersForSocket key handlers] has run for a key that holds an
    open socket, a text that parses to an envelope whose tag is a handler
    of the table makes the runtime's message event call exactly that
    handler, once, with the envelope's data and the key; the registry and
    every wire stay as they were. *)
Theorem setHandlersForSocket_then_message
    g key handlers id sock text eventData name f :
  get_own PropertyKey_eqb (_sockets g) (property_key key) = Some id ->
  heap g !! id = Some sock ->
  readyState (ws sock) = OPEN ->
  JSON_parse text = Some eventData ->
  Json_truthy eventData = true ->
  ToPropertyKey (Json_get eventData "key") = Normal name ->
  get_own String.eqb (handlers_own handlers) name = Some f ->
  exists g1 g2,
    setHandlersForSocket key handlers g = Returned tt g1
    /\ message_event id text g1 = Returned tt g2
    /\ trace g2 = trace g ++ [call_handler f (Json_get eventData "data") key]
    /\ _sockets g2 = _sockets g
    /\ forall j, (ws <$> heap g2 !! j) = (ws <$> heap g !! j).
Proof.
  intros Hown Hsock Hopen Hparse Htruthy Hname Hf.
  rewrite (setHandlersForSocket_own g key handlers id Hown).
  eexists. eexists. split; [reflexivity|].
  rewrite (message_event_listener _ id (set_onmessage (key, handlers) sock)
             key handlers text);
    [|simpl; now rewrite list_lookup_alter_eq, Hsock|exact Hopen|reflexivity].
  rewrite (onmessage_dispatch _ _ _ eventData) by assumption.
  rewrite Hname. unfold Get_handler. rewrite Hf. split; [reflexivity|]. simpl.
  split; [reflexivity|]. split; [reflexivity|].
  intros j. rewrite list_lookup_alter. destruct (decide (id = j)) as [->|Hne];
    [|reflexivity].
  now rewrite Hsock.
Qed.

(** X13: binding again replaces the table as a whole: calling
    [setHandlersForSocket] for a key twice leaves the group exactly as the
    second call alone would, so nothing of the first table survives. *)
Theorem setHandlersForSocket_replaces g key first second :
  (setHandlersForSocket key first ;; setHandlersForSocket key second)%js g
  = setHandlersForSocket key second g.
Proof.
  unfold setHandlersForSocket, bind, read__sockets, gets.
  destruct (Get Deno ObjectPrototype (_sockets g) (property_key key)) as [id|b|] eqn:Hget;
    simpl; unfold update_socket, modify, ret; simpl; rewrite ?Hget; simpl;
    try reflexivity.
  now rewrite list_alter_alter_eq.
Qed.

(** What the runtime's open event does to a socket [addSocket] has made. *)
Lemma open_event_fresh g key n :
  heap g !! n = Some (fresh_socket (opts g) key) ->
  open_event n g =
  Returned tt
    (match onOpen (opts g) with
     | Some f => log (call_option f key)
     | None => fun g => g
     end (set_heap (alter (fun s => set_ws (set_readyState OPEN (ws s)) s) n (heap g)) g)).
Proof.
  intros Hn.
  unfold open_event, bind, state_of, listener_of, update_socket, modify, gets.
  rewrite Hn. simpl. rewrite list_lookup_alter_eq, Hn. simpl.
  destruct (onOpen (opts g)) as [f|] eqn:Ho; simpl; [|reflexivity].
  unfold onopen_listener, bind, gets, call_opt. simpl. now rewrite Ho.
Qed.

(** X14: the runtime's open event on a socket that [addSocket key] has
    just registered makes it OPEN and calls [opts.onOpen], when that
    option was given, once and with that key; it changes neither the
    registry nor any other socket. *)
Theorem open_event_after_addSocket o actions key req response g' :
  let g := run actions (createSocketGroup o) in
  addSocket key req g = Returned response g' ->
  exists g1,
    open_event (length (heap g)) g' = Returned tt g1
    /\ is_OPEN g1 (length (heap g)) = true
    /\ _sockets g1 = _sockets g'
    /\ trace g1
       = trace g' ++ match onOpen (opts g') with
                     | Some f => [call_option f key]
                     | None => []
                     end
    /\ forall j, j <> length (heap g) -> heap g1 !! j = heap g' !! j.
Proof.
  intros g Hadd.
  destruct (addSocket_fresh g key req response g' (registry_ok_run o actions) Hadd)
    as (Hnew & Hopts & _).
  rewrite <- Hopts in Hnew. rewrite (open_event_fresh g' key _ Hnew).
  eexists. split; [reflexivity|].
  destruct (onOpen (opts g')); unfold is_OPEN; simpl;
    rewrite list_lookup_alter_eq, Hnew; simpl;
    (split; [reflexivity|]); (split; [reflexivity|]);
    (split; [now rewrite ?app_nil_r|]);
    intros j Hj; now rewrite list_lookup_alter_ne.
Qed.

(** X15: handlers belong to the socket, not to the key.  The socket that
    [addSocket key] registers has no message listener, whatever was bound
    under that key before: until [setHandlersForSocket] is called again,
    every text arriving on it once it is open is dropped without a call, a
    log line or an exception. *)
Theorem new_socket_has_no_handlers o actions key req response g' text :
  let g := run actions (createSocketGroup o) in
  addSocket key req g = Returned response g' ->
  let g1 := final (open_event (length (heap g)) g') in
  is_OPEN g1 (length (heap g)) = true
  /\ message_event (length (heap g)) text g1 = Returned tt g1.
Proof.
  intros g Hadd g1.
  destruct (addSocket_fresh g key req response g' (registry_ok_run o actions) Hadd)
    as (Hnew & Hopts & _).
  rewrite <- Hopts in Hnew. subst g1. rewrite (open_event_fresh g' key _ Hnew).
  unfold message_event, bind, state_of, listener_of, gets, is_OPEN.
  destruct (onOpen (opts g')); simpl;
    repeat (rewrite list_lookup_alter_eq, Hnew; simpl); split; reflexivity.
Qed.

End ListenerFacts.

(** ** What the methods and the events leave alone

    A relation [R] between the group before and after a step that the
    primitive updates respect is respected by the methods and the events
    built from them.  Used below with "the registry is the same" and with
    "no socket has got an [onclose] listener". *)

Section Frames.
Context `{Codec}.
Import Server.
Variable R : Group -> Group -> Prop.
Hypothesis R_refl : forall g, R g g.
Hypothesis R_trans : forall g1 g2 g3, R g1 g2 -> R g2 g3 -> R g1 g3.
Hypothesis R_update : forall g id f,
  (forall s, onclose (f s) = onclose s) -> R g (set_heap (alter f id (heap g)) g).
Hypothesis R_wire : forall g id s w,
  heap g !! id = Some s -> R g (set_heap (<[id := set_ws w s]> (heap g)) g).
Hypothesis R_log : forall g e, R g (log e g).
Hypothesis R_delete : forall g k,
  R g (set__sockets (delete_own PropertyKey_eqb (_sockets g) k) g).

Local Abbreviation respects m := (forall g, R g (final (m g))).

Lemma respects_ret {A} (a : A) : respects (ret a).
Proof. intros g. apply R_refl. Qed.

Lemma respects_throw {A} e : respects (throw e : Js Group A).
Proof. intros g. apply R_refl. Qed.

Lemma respects_gets {A} (f : Group -> A) : respects (gets f).
Proof. intros g. apply R_refl. Qed.

Lemma respects_complete {A} (c : Completion A) : respects (complete c).
Proof. intros g. destruct c; apply R_refl. Qed.

Lemma respects_bind {A B} (m : Js Group A) (k : A -> Js Group B) :
  respects m -> (forall a, respects (k a)) -> respects (bind m k).
Proof.
  intros Hm Hk g. unfold bind. specialize (Hm g).
  destruct (m g) as [a g1|e g1]; simpl in *; [|exact Hm].
  eapply R_trans; [exact Hm|apply Hk].
Qed.

Lemma respects_for_of {A} (xs : list A) (body : A -> Js Group unit) :
  (forall x, respects (body x)) -> respects (for_of xs body).
Proof.
  intros Hbody. induction xs as [|x rest IH]; simpl.
  - intros g. apply R_refl.
  - apply respects_bind; [apply Hbody|intros _; exact IH].
Qed.

Lemma respects_update_socket id f :
  (forall s, onclose (f s) = onclose s) -> respects (update_socket id f).
Proof. intros Hf g. now apply R_update. Qed.

Lemma respects_log e : respects (modify (log e)).
Proof. intros g. apply R_log. Qed.

Lemma respects_call_opt f key : respects (call_opt f key).
Proof. destruct f; simpl; [apply respects_log|(intros ?; apply R_refl)]. Qed.

Lemma respects_call_close socket : respects (call_close socket).
Proof.
  destruct socket; simpl;
    [now apply respects_update_socket|(intros ?; apply R_refl)..].
Qed.

Lemma respects_call_send socket data : respects (call_send socket data).
Proof.
  destruct socket as [id|b|]; simpl; [|(intros ?; apply R_refl)..].
  intros g. destruct (heap g !! id) as [s|] eqn:Hs; [|apply R_refl].
  destruct (WebSocket_send data (ws s)); simpl; [|apply R_refl].
  now apply R_wire.
Qed.

Lemma respects_removeSocket k : respects (removeSocket k).
Proof.
  unfold removeSocket, read__sockets.
  apply respects_bind; [apply respects_gets|intros socket].
  destruct (truthy socket); [|(intros ?; apply R_refl)].
  apply respects_bind; [apply respects_call_close|intros _].
  intros g. apply R_delete.
Qed.

Lemma respects_getSocket k : respects (getSocket k).
Proof.
  unfold getSocket, read__sockets.
  apply respects_bind; [apply respects_gets|intros socket].
  destruct (negb _); (intros ?; apply R_refl).
Qed.

Lemma respects_setHandlersForSocket key handlers :
  respects (setHandlersForSocket key handlers).
Proof.
  unfold setHandlersForSocket, read__sockets.
  apply respects_bind; [apply respects_gets|intros socket].
  destruct (negb _); [(intros ?; apply R_refl)|].
  destruct socket; [now apply respects_update_socket|(intros ?; apply R_refl)..].
Qed.

Lemma respects_send key message : respects (Server.send key message).
Proof.
  unfold Server.send, read__sockets.
  apply respects_bind; [apply respects_gets|intros socket].
  destruct (negb _); [(intros ?; apply R_refl)|].
  apply respects_bind; [apply respects_complete|intros data].
  apply respects_call_send.
Qed.

Lemma respects_broadcast message : respects (broadcast message).
Proof.
  unfold broadcast.
  apply respects_bind; [apply respects_gets|intros values].
  apply respects_for_of. intros socket.
  apply respects_bind; [apply respects_complete|intros data].
  apply respects_call_send.
Qed.

Lemma respects_onmessage_listener key handlers event_data :
  respects (Server.onmessage_listener key handlers event_data).
Proof.
  unfold Server.onmessage_listener.
  destruct (JSON_parse event_data) as [eventData|].
  - destruct (negb (Json_truthy eventData)); [(intros ?; apply R_refl)|].
    apply respects_bind; [apply respects_complete|intros name].
    destruct (Get_handler Deno handlers name); simpl;
      [apply respects_log|apply respects_complete|(intros ?; apply R_refl)].
  - apply respects_bind; [apply respects_log|intros _; (intros ?; apply R_refl)].
Qed.

Lemma respects_open_event id : respects (Server.open_event id).
Proof.
  unfold Server.open_event, state_of, listener_of, Server.onopen_listener.
  apply respects_bind; [apply respects_gets|intros state].
  destruct state as [[]|]; try (intros ?; apply R_refl);
    (apply respects_bind; [now apply respects_update_socket|intros _]);
    (apply respects_bind; [apply respects_gets|intros l]);
    (destruct l; [|(intros ?; apply R_refl)]);
    (apply respects_bind; [apply respects_gets|intros o]);
    apply respects_call_opt.
Qed.

Lemma respects_error_event id : respects (Server.error_event id).
Proof.
  unfold Server.error_event, state_of, listener_of, Server.onerror_listener.
  apply respects_bind; [apply respects_gets|intros state].
  destruct state as [[]|]; try (intros ?; apply R_refl);
    (apply respects_bind; [now apply respects_update_socket|intros _]);
    (apply respects_bind; [apply respects_gets|intros l]);
    (destruct l; [|(intros ?; apply R_refl)]);
    (apply respects_bind; [apply respects_gets|intros o]);
    apply respects_call_opt.
Qed.

Lemma respects_message_event id event_data :
  respects (Server.message_event id event_data).
Proof.
  unfold Server.message_event, state_of, listener_of.
  apply respects_bind; [apply respects_gets|intros state].
  destruct state as [[]|]; try (intros ?; apply R_refl).
  apply respects_bind; [apply respects_gets|intros l].
  destruct l as [[key handlers]|]; [|(intros ?; apply R_refl)].
  apply respects_onmessage_listener.
Qed.

Lemma respects_close_event id : respects (Server.close_event id).
Proof.
  unfold Server.close_event, state_of, listener_of, Server.onclose_listener.
  apply respects_bind; [apply respects_gets|intros state].
  destruct state as [[]|]; try (intros ?; apply R_refl);
    (apply respects_bind; [now apply respects_update_socket|intros _]);
    (apply respects_bind; [apply respects_gets|intros l]);
    (destruct l; [|(intros ?; apply R_refl)]);
    (apply respects_bind; [apply respects_removeSocket|intros _]);
    (apply respects_bind; [apply respects_gets|intros o]);
    apply respects_call_opt.
Qed.
End Frames.

Section RegistryChanges.
Context `{Codec}.
Import Server.

(** X17: the registry changes only by [addSocket], by [removeSocket] and
    by the close event of a socket.  Every other method and every other
    event of the runtime, whether it returns or throws, leaves the
    registry as it is; in particular the error event of a socket evicts
    nothing, and neither does a failed send. *)
Theorem registry_changes_only_by_add_remove_close g a :
  (forall key req, a <> do_addSocket key req) ->
  (forall key, a <> do_removeSocket key) ->
  (forall socket, a <> on_close socket) ->
  _sockets (perform a g) = _sockets g /\ opts (perform a g) = opts g.
Proof.
  intros Hadd Hremove Hclose.
  set (R := fun g g' : Group => _sockets g' = _sockets g /\ opts g' = opts g).
  assert (R_refl : forall g, R g g) by (intros; split; reflexivity).
  assert (R_trans : forall g1 g2 g3, R g1 g2 -> R g2 g3 -> R g1 g3)
    by (intros g1 g2 g3 [] []; split; congruence).
  assert (R_update : forall g id f,
    (forall s, onclose (f s) = onclose s) -> R g (set_heap (alter f id (heap g)) g))
    by (intros; split; reflexivity).
  assert (R_wire : forall g id s w,
    heap g !! id = Some s -> R g (set_heap (<[id := set_ws w s]> (heap g)) g))
    by (intros; split; reflexivity).
  assert (R_log : forall g e, R g (log e g)) by (intros; split; reflexivity).
  destruct a as [key req|key|key|key handlers|key message|message
                |socket|socket|socket|socket event_data]; simpl.
  - now destruct (Hadd key req).
  - now apply (respects_getSocket R).
  - now destruct (Hremove key).
  - now apply (respects_setHandlersForSocket R).
  - now apply (respects_send R).
  - now apply (respects_broadcast R).
  - now apply (respects_open_event R).
  - now destruct (Hclose socket).
  - now apply (respects_error_event R).
  - now apply (respects_message_event R).
Qed.

(** In a group made without an [onClose] option no socket ever has an
    [onclose] listener. *)
Lemma no_onclose_listener o actions :
  onClose o = None ->
  let g := run actions (createSocketGroup o) in
  opts g = o /\ Forall (fun s => onclose s = None) (heap g).
Proof.
  intros Ho. unfold run.
  set (P := fun s : Socket => onclose s = None).
  set (R := fun g g' : Group =>
         opts g' = opts g /\ (Forall P (heap g) -> Forall P (heap g'))).
  assert (R_refl : forall g, R g g) by (intros; split; [reflexivity|tauto]).
  assert (R_trans : forall g1 g2 g3, R g1 g2 -> R g2 g3 -> R g1 g3)
    by (intros g1 g2 g3 [] []; split; [congruence|tauto]).
  assert (R_update : forall g id f,
    (forall s, onclose (f s) = onclose s) -> R g (set_heap (alter f id (heap g)) g)).
  { intros g id f Hf. split; [reflexivity|]. simpl. intros Hall.
    apply Forall_alter; [exact Hall|]. intros s _ Hs. unfold P. now rewrite Hf. }
  assert (R_wire : forall g id s w,
    heap g !! id = Some s -> R g (set_heap (<[id := set_ws w s]> (heap g)) g)).
  { intros g id s w Hs. split; [reflexivity|]. simpl. intros Hall.
    apply Forall_insert; [exact Hall|].
    exact (proj1 (Forall_lookup P (heap g)) Hall id s Hs). }
  assert (R_log : forall g e, R g (log e g)) by (intros; split; [reflexivity|tauto]).
  assert (R_delete : forall g k,
    R g (set__sockets (delete_own PropertyKey_eqb (_sockets g) k) g))
    by (intros; split; [reflexivity|tauto]).
  assert (Hstep : forall a g, registry_ok g = true -> opts g = o ->
            Forall P (heap g) ->
            opts (perform a g) = o /\ Forall P (heap (perform a g))).
  { intros a g Hok Hopts Hall.
    assert (Hfrom : forall g', R g g' -> opts g' = o /\ Forall P (heap g'))
      by (intros g' [Ho' Hall']; split; [congruence|tauto]).
    destruct a as [key req|key|key|key handlers|key message|message
                  |socket|socket|socket|socket event_data]; simpl.
    - destruct (addSocket key req g) as [response g'|e g'] eqn:Hadd; simpl.
      + destruct (addSocket_fresh g key req response g' Hok Hadd)
          as (Hnew & Hopts' & _ & Hlen & Hold).
        split; [congruence|]. apply Forall_lookup. intros i s Hi.
        destruct (decide (i = length (heap g))) as [->|Hne].
        * rewrite Hnew in Hi. injection Hi as <-. unfold P. simpl.
          now rewrite Hopts, Ho.
        * assert (Hlt : i < length (heap g)).
          { apply lookup_lt_Some in Hi. lia. }
          destruct (lookup_lt_is_Some_2 _ _ Hlt) as [s0 Hs0].
          pose proof (proj1 (Forall_lookup P (heap g)) Hall i s0 Hs0) as Hp.
          destruct (Hold i s0 Hs0) as [Hsame|Hsame]; rewrite Hsame in Hi;
            injection Hi as <-; exact Hp.
      + assert (HoC : onClose (opts g) = None) by congruence.
        revert Hadd. unfold addSocket, bind; rewrite Deno_upgradeWebSocket_eq; unfold gets.
        destruct (upgradable req); [|now intros [= <- <-]]. simpl.
        rewrite HoC.
        destruct (onOpen (opts g)), (onError (opts g)); simpl;
          unfold bind, removeSocket, bind, read__sockets, gets, update_socket,
            modify, write__sockets, ret; simpl;
          try destruct (Get Deno ObjectPrototype (_sockets g) (property_key key));
          simpl; unfold bind, delete__sockets, modify, throw; simpl;
          try discriminate; intros [= <- <-]; simpl; (split; [exact Hopts|]);
          rewrite ?alter_last; apply Forall_app; (split; [exact Hall|]);
          now repeat constructor.
    - now apply Hfrom, (respects_getSocket R).
    - now apply Hfrom, (respects_removeSocket R).
    - now apply Hfrom, (respects_setHandlersForSocket R).
    - now apply Hfrom, (respects_send R).
    - now apply Hfrom, (respects_broadcast R).
    - now apply Hfrom, (respects_open_event R).
    - now apply Hfrom, (respects_close_event R).
    - now apply Hfrom, (respects_error_event R).
    - now apply Hfrom, (respects_message_event R). }
  assert (Hgen : forall g, registry_ok g = true -> opts g = o -> Forall P (heap g) ->
            opts (fold_left (fun g a => perform a g) actions g) = o
            /\ Forall P (heap (fold_left (fun g a => perform a g) actions g))).
  { induction actions as [|a rest IH]; intros g Hok Hopts Hall; simpl; [now split|].
    destruct (Hstep a g Hok Hopts Hall) as [Hopts' Hall'].
    apply IH; [now apply registry_ok_perform|exact Hopts'|exact Hall']. }
  apply Hgen; [reflexivity|reflexivity|constructor].
Qed.

(** X18: a group made without an [onClose] option never evicts a socket
    whose connection has ended.  In every state such a group can reach,
    the close event of a socket marks it CLOSED and changes nothing else:
    the registry and the trace stay as they are, so the closed socket
    stays registered, and is still enumerated by [broadcast], until
    [removeSocket] is called or its key is given to another socket. *)
Theorem without_onClose_nothing_is_evicted o actions id :
  onClose o = None ->
  let g := run actions (createSocketGroup o) in
  let g' := perform (on_close id) g in
  _sockets g' = _sockets g
  /\ trace g' = trace g
  /\ (is_Some (heap g !! id) -> (readyState ∘ ws <$> heap g' !! id) = Some CLOSED)
  /\ forall j, j <> id -> heap g' !! j = heap g !! j.
Proof.
  intros Ho g g'.
  destruct (no_onclose_listener o actions Ho) as [_ Hall]. fold g in Hall.
  subst g'. simpl.
  unfold Server.close_event, bind, state_of, listener_of, gets, update_socket, modify.
  destruct (heap g !! id) as [s|] eqn:Hs; simpl.
  - pose proof (proj1 (Forall_lookup _ (heap g)) Hall id s Hs) as Hnone.
    simpl in Hnone.
    destruct (readyState (ws s)) eqn:Hstate; simpl;
      rewrite ?list_lookup_alter_eq, ?Hs; simpl; rewrite ?Hnone; simpl;
      rewrite ?list_lookup_alter_eq, ?Hs; simpl; rewrite ?Hstate;
      (split; [reflexivity|]); (split; [reflexivity|]);
      (split; [reflexivity|]); intros j Hj; now rewrite ?list_lookup_alter_ne.
  - split; [reflexivity|]. split; [reflexivity|].
    split; [intros [? ?]; discriminate|reflexivity].
Qed.
End RegistryChanges.

(** ** The client socket, continued *)

Section ClientFacts.
Context `{Codec}.
Import Client.

Lemma set__socket_id (c : Connection) : set__socket (_socket c) c = c.
Proof. now destruct c. Qed.

Lemma WebSocket_send_ended data w :
  readyState w = CLOSING \/ readyState w = CLOSED ->
  WebSocket_send data w = Normal w.
Proof. unfold WebSocket_send. now intros [-> | ->]. Qed.

Lemma WebSocket_close_ended w :
  readyState (WebSocket_close w) = CLOSING \/ readyState (WebSocket_close w) = CLOSED.
Proof. unfold WebSocket_close. simpl. destruct (readyState w); auto. Qed.

Lemma client_send_OPEN c message data :
  JSON_stringify message = Normal data ->
  readyState (_socket c) = OPEN ->
  Client.send message c
  = Returned tt
      (set__socket {| readyState := OPEN; sent := sent (_socket c) ++ [data];
                      close_calls := close_calls (_socket c) |} c).
Proof.
  intros Hdata Hopen. rewrite (client_send_serializable message data c Hdata).
  unfold socket_send, WebSocket_send. now rewrite Hopen.
Qed.

(** X19: what the client's [send] does with a message that serialises is
    decided by the state of the socket alone.  While the socket is
    CONNECTING, so in particular until the promise of [connect] is
    fulfilled, [send] throws InvalidStateError and sends nothing; on an
    OPEN socket it puts the text on the wire, once; on a socket that is
    closing or closed it returns without sending and without any sign. *)
Theorem client_send_by_readyState c message data :
  JSON_stringify message = Normal data ->
  Client.send message c
  = match readyState (_socket c) with
    | CONNECTING => Thrown InvalidStateError c
    | OPEN =>
        Returned tt
          (set__socket {| readyState := OPEN; sent := sent (_socket c) ++ [data];
                          close_calls := close_calls (_socket c) |} c)
    | CLOSING | CLOSED => Returned tt c
    end.
Proof.
  intros Hdata. rewrite (client_send_serializable message data c Hdata).
  unfold socket_send, WebSocket_send.
  destruct (readyState (_socket c)); simpl; try reflexivity;
    now rewrite set__socket_id.
Qed.

(** X20: once the connection has been ended, by [close()], by the close
    event or by the error event, every [send] of a message that
    serialises is dropped: it returns normally, nothing is put on the
    wire, nothing is logged and nothing is thrown. *)
Theorem client_send_after_the_end_is_dropped c message data :
  JSON_stringify message = Normal data ->
  (let c' := final (Client.close c) in Client.send message c' = Returned tt c')
  /\ (let c' := final (close_event c) in Client.send message c' = Returned tt c')
  /\ (let c' := final (error_event c) in Client.send message c' = Returned tt c').
Proof.
  intros Hdata.
  assert (Hended : forall c',
    readyState (_socket c') = CLOSING \/ readyState (_socket c') = CLOSED ->
    Client.send message c' = Returned tt c').
  { intros c' Hc'. rewrite (client_send_serializable message data c' Hdata).
    unfold socket_send. rewrite (WebSocket_send_ended data _ Hc').
    now rewrite set__socket_id. }
  split; [|split]; simpl; apply Hended.
  - apply WebSocket_close_ended.
  - unfold close_event, bind, gets, onclose_listener, bind, socket_close, modify,
      call_opt.
    destruct (readyState (_socket c)) eqn:Hs; simpl;
      destruct (onClose (opts c)); simpl; rewrite ?Hs; auto.
  - unfold error_event, bind, gets, onerror_listener, bind, socket_close, modify,
      call_opt.
    destruct (readyState (_socket c)) eqn:Hs; simpl;
      destruct (onError (opts c)); simpl; rewrite ?Hs; auto.
Qed.
(** X22: what settles the promise.  On a connection [connect] has just
    made, the open event fulfils the promise, makes the socket OPEN and
    then calls [opts.onOpen]; the error event calls [opts.onError],
    rejects the promise and calls [close()] on the socket; the close
    event alone leaves the promise pending. *)
Theorem connect_promise r o :
  let c := connect r o in
  (let c' := final (open_event c) in
   promise c' = Fulfilled /\ readyState (_socket c') = OPEN
   /\ trace c' = match onOpen o with Some f => [call_option f] | None => [] end)
  /\ (let c' := final (error_event c) in
      promise c' = Rejected /\ close_calls (_socket c') = 1
      /\ trace c' = match onError o with Some f => [call_option f] | None => [] end)
  /\ (let c' := final (close_event c) in
      promise c' = Pending /\ readyState (_socket c') = CLOSED
      /\ trace c' = match onClose o with Some f => [call_option f] | None => [] end).
Proof.
  simpl. split; [|split].
  - unfold open_event, bind, gets, onopen_listener, bind, modify, call_opt. simpl.
    now destruct (onOpen o).
  - unfold error_event, bind, gets, onerror_listener, bind, socket_close, modify,
      call_opt. simpl.
    now destruct (onError o).
  - unfold close_event, bind, gets, onclose_listener, bind, socket_close, modify,
      call_opt. simpl.
    now destruct (onClose o).
Qed.

(** X23: the client dispatches with the table of the latest
    [setHandlersForSocket].  After the handlers have been set, and set
    again, a text arriving on the open socket that parses to an envelope
    whose tag is a handler of the second table calls exactly that
    handler, once, with the envelope's data; the socket and the promise
    stay as they are. *)
Theorem client_setHandlersForSocket_then_message
    c first second text eventData name f :
  readyState (_socket c) = OPEN ->
  JSON_parse text = Some eventData ->
  Json_truthy eventData = true ->
  ToPropertyKey (Json_get eventData "key") = Normal name ->
  get_own String.eqb (handlers_own second) name = Some f ->
  let c1 := final (Client.setHandlersForSocket second
                     (final (Client.setHandlersForSocket first c))) in
  exists c2,
    message_event text c1 = Returned tt c2
    /\ trace c2 = trace c ++ [call_handler f (Json_get eventData "data")]
    /\ _socket c2 = _socket c
    /\ promise c2 = promise c
    /\ _handlers c2 = Some second.
Proof.
  intros Hopen Hparse Htruthy Hname Hf c1. subst c1. simpl.
  unfold message_event, bind, gets. simpl. rewrite Hopen.
  rewrite (client_onmessage_dispatch text eventData second) by easy.
  rewrite Hname. unfold Get_handler. rewrite Hf. eexists. split; [reflexivity|]. now simpl.
Qed.
End ClientFacts.

(** ** Both ends of a connection, continued *)

Section WireFacts.
Context `{Codec}.

(** X24: a payload that parses to a falsy value ([null], [0], [false] or
    the empty string) is dropped by both message listeners without a
    trace: no handler is looked up, nothing is logged and nothing is
    thrown.  On the client this holds even while [_handlers] has never
    been assigned. *)
Theorem falsy_payload_is_dropped_silently text eventData :
  JSON_parse text = Some eventData ->
  Json_truthy eventData = false ->
  (forall key handlers g,
     Server.onmessage_listener key handlers text g = Returned tt g)
  /\ (forall c, Client.onmessage_listener text c = Returned tt c).
Proof.
  intros Hparse Hfalsy. split.
  - intros key handlers g. now apply (onmessage_falsy _ _ _ eventData).
  - intros c. unfold Client.onmessage_listener. now rewrite Hparse, Hfalsy.
Qed.

(** X25: from the client to a handler of the group.  When the client's
    socket is OPEN, [send message] puts exactly one text on its wire; and
    when that text arrives on the group's open socket registered under
    [key], whose handlers have an entry for the tag the text carries, the
    group calls that handler once, with the data the text carries and
    with [key]. *)
Theorem client_message_reaches_the_handler
    c message text g key id sock handlers eventData name f :
  readyState (Client._socket c) = OPEN ->
  JSON_stringify message = Normal text ->
  Server.heap g !! id = Some sock ->
  readyState (Server.ws sock) = OPEN ->
  Server.onmessage sock = Some (key, handlers) ->
  JSON_parse text = Some eventData ->
  Json_truthy eventData = true ->
  ToPropertyKey (Json_get eventData "key") = Normal name ->
  get_own String.eqb (handlers_own handlers) name = Some f ->
  exists c' arrived,
    Client.send message c = Returned tt c'
    /\ sent (Client._socket c') = sent (Client._socket c) ++ [arrived]
    /\ Server.message_event id arrived g
       = Returned tt
           (Server.log (Server.call_handler f (Json_get eventData "data") key) g).
Proof.
  intros Hopen Hdata Hsock Hstate Hl Hparse Htruthy Hname Hf.
  rewrite (client_send_OPEN c message text Hdata Hopen).
  eexists. exists text. split; [reflexivity|]. split; [reflexivity|].
  rewrite (message_event_listener g id sock key handlers text Hsock Hstate Hl).
  rewrite (onmessage_dispatch _ _ _ eventData) by assumption.
  rewrite Hname. unfold Get_handler. now rewrite Hf.
Qed.

(** X26: from the group to a handler of the client.  When [key] holds an
    OPEN socket, [send key message] puts exactly one text on its wire;
    and when that text arrives on the client's open socket, whose current
    handlers have an entry for the tag the text carries, the client calls
    that handler once, with the data the text carries. *)
Theorem server_message_reaches_the_handler
    g key message text id sock c handlers eventData name f :
  get_own PropertyKey_eqb (Server._sockets g) (Server.property_key key) = Some id ->
  Server.heap g !! id = Some sock ->
  readyState (Server.ws sock) = OPEN ->
  JSON_stringify message = Normal text ->
  readyState (Client._socket c) = OPEN ->
  Client._handlers c = Some handlers ->
  JSON_parse text = Some eventData ->
  Json_truthy eventData = true ->
  ToPropertyKey (Json_get eventData "key") = Normal name ->
  get_own String.eqb (handlers_own handlers) name = Some f ->
  exists g' sock' arrived,
    Server.send key message g = Returned tt g'
    /\ Server.heap g' !! id = Some sock'
    /\ sent (Server.ws sock') = sent (Server.ws sock) ++ [arrived]
    /\ Client.message_event arrived c
       = Returned tt
           (Client.log (Client.call_handler f (Json_get eventData "data")) c).
Proof.
  intros Hown Hsock Hstate Hdata Hopen Hh Hparse Htruthy Hname Hf.
  rewrite (send_OPEN g key message text id Hown Hdata)
    by (unfold Server.is_OPEN; now rewrite Hsock, Hstate).
  eexists. eexists. exists text. split; [reflexivity|]. simpl.
  rewrite list_lookup_alter_eq, Hsock. simpl.
  split; [reflexivity|]. split; [reflexivity|].
  unfold Client.message_event, bind, gets. rewrite Hopen.
  rewrite (client_onmessage_dispatch text eventData handlers c) by assumption.
  rewrite Hname. unfold Get_handler. now rewrite Hf.
Qed.
End WireFacts.

(** ** Further worked examples *)

Section FurtherScenarios.
Import Examples Server.

(** *** The registry *)

Lemma removeSocket_then_getSocket_witness :
  get_own PropertyKey_eqb (_sockets group_abc_open) (property_key (KString "b"))
  = Some 1
  /\ names_prototype_member (KString "b") = false
  /\ exists g',
       removeSocket (KString "b") group_abc_open = Returned tt g'
       /\ getSocket (KString "b") g' = Returned None g'
       /\ (ws <$> heap g' !! 1)
          = Some {| readyState := CLOSING; sent := []; close_calls := 1 |}
       /\ removeSocket (KString "b") g' = Returned tt g'.
Proof.
  split; [reflexivity|]. split; [reflexivity|].
  destruct (removeSocket_then_getSocket group_abc_open (KString "b") 1 _
              eq_refl eq_refl eq_refl)
    as (g' & Hrm & Hget & Hclosed & _ & _ & Hagain).
  exists g'. split; [exact Hrm|]. split; [exact Hget|].
  split; [now rewrite Hclosed|exact Hagain].
Defined.

Lemma other_keys_are_unaffected_witness :
  property_key (KString "b") <> property_key (KString "a")
  /\ getSocket (KString "b") (final (addSocket (KString "a") upgrade group_abc_open))
     = Returned (Some (Own 1))
         (final (addSocket (KString "a") upgrade group_abc_open))
  /\ getSocket (KString "b") (final (removeSocket (KString "a") group_abc_open))
     = Returned (Some (Own 1)) (final (removeSocket (KString "a") group_abc_open)).
Proof.
  assert (Hne : property_key (KString "b") <> property_key (KString "a"))
    by (simpl; congruence).
  split; [exact Hne|].
  exact (other_keys_are_unaffected group_abc_open (KString "a") (KString "b")
           upgrade (Some (Own 1)) Hne eq_refl).
Defined.


(** The two ways [Deno.upgradeWebSocket] refuses a request. *)
Example addSocket_refused :
  addSocket (KString "d") plain group_abc_open = Thrown TypeError group_abc_open
  /\ addSocket (KString "d") upgraded group_abc_open = Thrown Http group_abc_open.
Proof. split; reflexivity. Qed.

(** *** Sending *)

Lemma send_by_readyState_witness :
  get_own PropertyKey_eqb (_sockets group_abc_b_connecting) (property_key (KString "b"))
  = Some 1
  /\ (readyState ∘ ws <$> heap group_abc_b_connecting !! 1) = Some CONNECTING
  /\ JSON_stringify ping = Normal ping_text
  /\ Server.send (KString "b") ping group_abc_b_connecting
     = Thrown InvalidStateError group_abc_b_connecting.
Proof.
  split; [reflexivity|]. split; [reflexivity|]. split; [reflexivity|].
  exact (send_by_readyState group_abc_b_connecting (KString "b") ping ping_text 1 _
           eq_refl eq_refl eq_refl).
Defined.

Lemma broadcast_to_nobody_witness :
  string_keyed
    (_sockets (run [do_addSocket (KSymbol 0) upgrade] (createSocketGroup no_opts)))
  = []
  /\ broadcast tally (run [do_addSocket (KSymbol 0) upgrade] (createSocketGroup no_opts))
     = Returned tt (run [do_addSocket (KSymbol 0) upgrade] (createSocketGroup no_opts)).
Proof.
  split; [reflexivity|].
  exact (broadcast_to_nobody
           (run [do_addSocket (KSymbol 0) upgrade] (createSocketGroup no_opts))
           tally eq_refl).
Defined.

Lemma broadcast_of_unserializable_witness :
  string_keyed (_sockets group_abc) <> []
  /\ JSON_stringify tally = Abrupt TypeError
  /\ broadcast tally group_abc = Thrown TypeError group_abc.
Proof.
  assert (Hne : string_keyed (_sockets group_abc) <> [])
    by (vm_compute; discriminate).
  split; [exact Hne|]. split; [reflexivity|].
  exact (broadcast_of_unserializable group_abc tally TypeError Hne eq_refl).
Defined.

Lemma broadcast_never_serves_symbol_keys_witness :
  (forall name, (PString name, 1) ∉ _sockets group_with_symbol)
  /\ heap (final (broadcast ping group_with_symbol)) !! 1
     = heap group_with_symbol !! 1.
Proof.
  assert (Hsym : forall name, (PString name, 1) ∉ _sockets group_with_symbol).
  { assert (Hs : _sockets group_with_symbol = [(PString "a", 0); (PSymbol 0, 1)])
      by reflexivity.
    intros name Hin. rewrite Hs in Hin.
    apply elem_of_cons in Hin as [Heq|Hin]; [discriminate Heq|].
    apply elem_of_cons in Hin as [Heq|Hin]; [discriminate Heq|].
    inversion Hin. }
  split; [exact Hsym|].
  exact (broadcast_never_serves_symbol_keys group_with_symbol ping 1 Hsym).
Defined.

Lemma send_right_after_addSocket_throws_witness :
  addSocket (KString "a") upgrade (createSocketGroup no_opts)
  = Returned (SwitchingProtocols 0)
      (run [do_addSocket (KString "a") upgrade] (createSocketGroup no_opts))
  /\ JSON_stringify ping = Normal ping_text
  /\ Server.send (KString "a") ping
       (run [do_addSocket (KString "a") upgrade] (createSocketGroup no_opts))
     = Thrown InvalidStateError
         (run [do_addSocket (KString "a") upgrade] (createSocketGroup no_opts)).
Proof.
  split; [reflexivity|]. split; [reflexivity|].
  exact (proj1 (send_right_after_addSocket_throws no_opts [] (KString "a") upgrade
                  (SwitchingProtocols 0) _ ping ping_text eq_refl eq_refl)).
Defined.

(** *** Handlers and listeners *)

Lemma setHandlersForSocket_then_message_witness :
  get_own PropertyKey_eqb (_sockets (group_a no_opts)) (property_key (KString "a"))
  = Some 0
  /\ is_OPEN (group_a no_opts) 0 = true
  /\ JSON_parse ping_text = Some (JObject [("key", JString "ping"); ("data", JNull)])
  /\ exists g1 g2,
       setHandlersForSocket (KString "a") ping_handlers (group_a no_opts)
       = Returned tt g1
       /\ message_event 0 ping_text g1 = Returned tt g2
       /\ trace g2 = [call_handler (Fn 7) (Some JNull) (KString "a")].
Proof.
  split; [reflexivity|]. split; [reflexivity|]. split; [reflexivity|].
  assert (Hparse : JSON_parse ping_text
                   = Some (JObject [("key", JString "ping"); ("data", JNull)]))
    by reflexivity.
  destruct (setHandlersForSocket_then_message (group_a no_opts) (KString "a")
              ping_handlers 0 _ ping_text
              (JObject [("key", JString "ping"); ("data", JNull)]) "ping" (Fn 7)
              eq_refl eq_refl eq_refl Hparse eq_refl eq_refl eq_refl)
    as (g1 & g2 & Hset & Hmsg & Htrace & _).
  exists g1, g2. split; [exact Hset|]. split; [exact Hmsg|exact Htrace].
Defined.

Lemma open_event_after_addSocket_witness :
  addSocket (KString "a") upgrade
    (createSocketGroup {| onOpen := Some (Fn 2); onClose := None; onError := None |})
  = Returned (SwitchingProtocols 0)
      (final (addSocket (KString "a") upgrade
                (createSocketGroup
                   {| onOpen := Some (Fn 2); onClose := None; onError := None |})))
  /\ exists g1,
       open_event 0
         (final (addSocket (KString "a") upgrade
                   (createSocketGroup
                      {| onOpen := Some (Fn 2); onClose := None; onError := None |})))
       = Returned tt g1
       /\ is_OPEN g1 0 = true
       /\ trace g1 = [call_option (Fn 2) (KString "a")].
Proof.
  split; [reflexivity|].
  destruct (open_event_after_addSocket
              {| onOpen := Some (Fn 2); onClose := None; onError := None |} []
              (KString "a") upgrade (SwitchingProtocols 0) _ eq_refl)
    as (g1 & Hopen & Hstate & _ & Htrace & _).
  exists g1. split; [exact Hopen|]. split; [exact Hstate|exact Htrace].
Defined.

(** "a" has the "ping" handlers bound; the socket a second [addSocket]
    puts under "a" has none, and the ping arriving on it is dropped. *)
Lemma new_socket_has_no_handlers_witness :
  addSocket (KString "a") upgrade
    (run [ do_addSocket (KString "a") upgrade; on_open 0;
           do_setHandlersForSocket (KString "a") ping_handlers ]
       (createSocketGroup no_opts))
  = Returned (SwitchingProtocols 1)
      (final (addSocket (KString "a") upgrade group_a_listening))
  /\ message_event 1 ping_text
       (final (open_event 1 (final (addSocket (KString "a") upgrade group_a_listening))))
     = Returned tt
         (final (open_event 1 (final (addSocket (KString "a") upgrade group_a_listening)))).
Proof.
  split; [reflexivity|].
  exact (proj2 (new_socket_has_no_handlers no_opts
                  [ do_addSocket (KString "a") upgrade; on_open 0;
                    do_setHandlersForSocket (KString "a") ping_handlers ]
                  (KString "a") upgrade (SwitchingProtocols 1)
                  (final (addSocket (KString "a") upgrade group_a_listening))
                  ping_text eq_refl)).
Defined.


Lemma registry_changes_only_by_add_remove_close_witness :
  _sockets (perform (on_error 0) group_abc_onError) = _sockets group_abc_onError
  /\ trace (perform (on_error 0) group_abc_onError)
     = trace group_abc_onError ++ [call_option (Fn 0) (KString "a")].
Proof.
  split; [|reflexivity].
  apply (registry_changes_only_by_add_remove_close group_abc_onError (on_error 0));
    intros; discriminate.
Defined.

Lemma without_onClose_nothing_is_evicted_witness :
  onClose no_opts = None
  /\ _sockets (perform (on_close 1) group_abc_open) = _sockets group_abc_open
  /\ (readyState ∘ ws <$> heap (perform (on_close 1) group_abc_open) !! 1)
     = Some CLOSED
  /\ getSocket (KString "b") (perform (on_close 1) group_abc_open)
     = Returned (Some (Own 1)) (perform (on_close 1) group_abc_open).
Proof.
  split; [reflexivity|].
  destruct (without_onClose_nothing_is_evicted no_opts
              (register_abc ++ [on_open 0; on_open 1; on_open 2]) 1 eq_refl)
    as (Hs & _ & Hclosed & _).
  split; [exact Hs|]. split; [|reflexivity].
  apply Hclosed. now eexists.
Defined.

(** *** The client *)

Lemma client_send_by_readyState_witness :
  JSON_stringify ping = Normal ping_text
  /\ Client.send ping (Client.connect Browser no_client_opts)
     = Thrown InvalidStateError (Client.connect Browser no_client_opts)
  /\ exists c',
       Client.send ping client_open = Returned tt c'
       /\ sent (Client._socket c') = [ping_text].
Proof.
  split; [reflexivity|]. split.
  - exact (client_send_by_readyState (Client.connect Browser no_client_opts)
             ping ping_text eq_refl).
  - eexists.
    split; [exact (client_send_by_readyState client_open ping ping_text eq_refl)|].
    reflexivity.
Defined.

Lemma client_send_after_the_end_is_dropped_witness :
  JSON_stringify ping = Normal ping_text
  /\ Client.send ping (final (Client.close client_open))
     = Returned tt (final (Client.close client_open)).
Proof.
  split; [reflexivity|].
  exact (proj1 (client_send_after_the_end_is_dropped client_open ping ping_text
                  eq_refl)).
Defined.

Lemma client_setHandlersForSocket_then_message_witness :
  readyState (Client._socket client_open) = OPEN
  /\ JSON_parse ping_text = Some (JObject [("key", JString "ping"); ("data", JNull)])
  /\ exists c2,
       Client.message_event ping_text
         (final (Client.setHandlersForSocket ping_handlers
                   (final (Client.setHandlersForSocket
                             {| handlers_own := []; handlers_proto := ObjectPrototype |}
                             client_open))))
       = Returned tt c2
       /\ Client.trace c2 = [Client.call_handler (Fn 7) (Some JNull)].
Proof.
  split; [reflexivity|]. split; [reflexivity|].
  assert (Hparse : JSON_parse ping_text
                   = Some (JObject [("key", JString "ping"); ("data", JNull)]))
    by reflexivity.
  destruct (client_setHandlersForSocket_then_message client_open
              {| handlers_own := []; handlers_proto := ObjectPrototype |}
              ping_handlers ping_text
              (JObject [("key", JString "ping"); ("data", JNull)]) "ping" (Fn 7) eq_refl Hparse eq_refl eq_refl eq_refl)
    as (c2 & Hmsg & Htrace & _).
  exists c2. split; [exact Hmsg|exact Htrace].
Defined.

(** *** Both ends *)

Lemma falsy_payload_is_dropped_silently_witness :
  JSON_parse "null" = Some JNull
  /\ Json_truthy JNull = false
  /\ onmessage_listener (KString "a") ping_handlers "null" group_a_listening
     = Returned tt group_a_listening
  /\ Client.onmessage_listener "null" client_open = Returned tt client_open.
Proof.
  split; [reflexivity|]. split; [reflexivity|].
  assert (Hparse : JSON_parse "null" = Some JNull) by reflexivity.
  destruct (falsy_payload_is_dropped_silently "null" JNull Hparse eq_refl)
    as [Hserver Hclient].
  split; [apply Hserver|apply Hclient].
Defined.

Lemma client_message_reaches_the_handler_witness :
  readyState (Client._socket client_open) = OPEN
  /\ JSON_stringify ping = Normal ping_text
  /\ (onmessage <$> heap group_a_listening !! 0)
     = Some (Some (KString "a", ping_handlers))
  /\ exists c' arrived,
       Client.send ping client_open = Returned tt c'
       /\ sent (Client._socket c') = [arrived]
       /\ message_event 0 arrived group_a_listening
          = Returned tt
              (log (call_handler (Fn 7) (Some JNull) (KString "a")) group_a_listening).
Proof.
  split; [reflexivity|]. split; [reflexivity|]. split; [reflexivity|].
  assert (Hparse : JSON_parse ping_text
                   = Some (JObject [("key", JString "ping"); ("data", JNull)]))
    by reflexivity.
  destruct (client_message_reaches_the_handler client_open ping ping_text
              group_a_listening (KString "a") 0 _ ping_handlers
              (JObject [("key", JString "ping"); ("data", JNull)]) "ping" (Fn 7)
              eq_refl eq_refl eq_refl eq_refl eq_refl Hparse eq_refl eq_refl eq_refl)
    as (c' & arrived & Hsend & Hsent & Hmsg).
  exists c', arrived. split; [exact Hsend|]. split; [exact Hsent|exact Hmsg].
Defined.

Lemma server_message_reaches_the_handler_witness :
  get_own PropertyKey_eqb (_sockets (group_a no_opts)) (property_key (KString "a"))
  = Some 0
  /\ is_OPEN (group_a no_opts) 0 = true
  /\ Client._handlers client_listening = Some ping_handlers
  /\ exists g' sock' arrived,
       Server.send (KString "a") ping (group_a no_opts) = Returned tt g'
       /\ heap g' !! 0 = Some sock'
       /\ sent (ws sock') = [arrived]
       /\ Client.message_event arrived client_listening
          = Returned tt
              (Client.log (Client.call_handler (Fn 7) (Some JNull)) client_listening).
Proof.
  split; [reflexivity|]. split; [reflexivity|]. split; [reflexivity|].
  assert (Hparse : JSON_parse ping_text
                   = Some (JObject [("key", JString "ping"); ("data", JNull)]))
    by reflexivity.
  destruct (server_message_reaches_the_handler (group_a no_opts) (KString "a") ping
              ping_text 0 _ client_listening ping_handlers
              (JObject [("key", JString "ping"); ("data", JNull)]) "ping" (Fn 7)
              eq_refl eq_refl eq_refl eq_refl eq_refl eq_refl Hparse eq_refl eq_refl eq_refl)
    as (g' & sock' & arrived & Hsend & Hsock & Hsent & Hmsg).
  exists g', sock', arrived. split; [exact Hsend|]. split; [exact Hsock|].
  split; [exact Hsent|exact Hmsg].
Defined.
End FurtherScenarios.
